(** * Chronovisor: conversion of time-stamped records to Chrono events

    A shallow embedding of the core of the Chronovisor sources: the [Chrono]
    event and its serialisations ([toJson], [toCsv], [toOldCsv]), the [Map]
    record converter ([convertTimestamp], [getNestedValue], [convertCsv],
    [convertJson], [convert]), the [ChronoSet] collection ([Jsonify],
    [Csvify], [FindSuccessivePairs]) and [getUuid].  Two versions of the
    source are covered: src/chronovisor.ts ([Map.convertCsv],
    [Map.convertJson], [Chrono.toCsv], [Chrono.Jsonify]) and the later
    src/unnamed/part_003 ([Map.convert] and the class [ChronoSet]);
    [convertTimestamp], [getNestedValue], the [Chrono] class, [getUuid] and
    the loops of [Jsonify] and [Csvify] are the same in both.

    The program is JavaScript: numbers are IEEE-754 doubles (the kernel's
    primitive floats), [Chrono] objects and arrays are mutable and shared, so
    they live in a store and are named by references; failures are thrown
    exceptions; the diagnostics list [errors] is a global that is appended to. *)

From Stdlib Require Import Floats ZArith Ascii String HexadecimalString.
From stdpp Require Import base list gmap strings pretty sorting.

Set Warnings "-inexact-float,-register-all".

Local Open Scope string_scope.

(** ** The fragment of JavaScript the program runs on *)

Module JS.

(** Values read from CSV cells and JSON records, plus [undefined].
    Strings are sequences of code units below 256. *)
Inductive val : Type :=
| VUndef
| VNull
| VBool (b : bool)
| VNum (x : float)
| VStr (s : string)
| VArr (l : list val)
| VObj (l : list (string * val)).

Inductive exn : Type :=
| TypeError
| RangeError.

Inductive result (A : Type) : Type :=
| Ok (a : A)
| Throw (e : exn).
Global Arguments Ok {A} a.
Global Arguments Throw {A} e.

(** What the host provides and this development does not compute:
    [Number::toString] and [StringToNumber] of ECMA-262, the time value of
    midnight, 1 January of year 1 in the host's local time zone (what the
    [Date] manipulation of [convertTimestamp] evaluates to), the minutes and
    seconds of a time value in local time, and the stream of results of
    [Math.random()]. *)
Record Host : Type := {
  Number_toString : float → string;
  StringToNumber : string → float;
  year1_local : float;
  Date_getMinutes : float → float;
  Date_getSeconds : float → float;
  Math_random : nat → float
}.

(** *** Numbers *)

(** The integer part of a finite double, [None] for NaN and the infinities. *)
Definition trunc (x : float) : option Z :=
  match Prim2SF x with
  | S754_zero _ => Some 0%Z
  | S754_finite s m e =>
      let a := if (0 <=? e)%Z then Z.shiftl (Z.pos m) e
               else Z.shiftr (Z.pos m) (- e) in
      Some (if s then (- a)%Z else a)
  | _ => None
  end.

(** The double nearest to an integer (ties to even). *)
Definition of_Z (z : Z) : float :=
  SF2Prim (binary_normalize prec emax z 0 false).

(** [x | 0] *)
Definition ToInt32 (x : float) : Z :=
  match trunc x with
  | None => 0
  | Some z =>
      let r := (z mod 2 ^ 32)%Z in
      if (r <? 2 ^ 31)%Z then r else (r - 2 ^ 32)%Z
  end.

Definition is_integral (x : float) : bool :=
  match trunc x with
  | Some z => PrimFloat.eqb (of_Z z) x
  | None => false
  end.

(** *** Strings *)

(** [s.split(sep)] for a string separator; an empty separator cuts the
    string into its code units. *)
Fixpoint split_go (sep : string) (skip : nat) (cur : string) (s : string)
  : list string :=
  match s with
  | EmptyString => [cur]
  | String c s' =>
      match skip with
      | S k => split_go sep k cur s'
      | O =>
          if String.prefix sep s
          then cur :: split_go sep (String.length sep - 1) "" s'
          else split_go sep 0 (cur +:+ String c "") s'
      end
  end.

Definition split (sep : string) (s : string) : list string :=
  match sep with
  | EmptyString => (λ c, String c "") <$> String.list_ascii_of_string s
  | _ => split_go sep 0 "" s
  end.

(** [s.replace(pat, rep)] for a string pattern [pat] and a replacement
    without [$]: only the first occurrence of [pat] is replaced. *)
Fixpoint replace (pat rep : string) (s : string) : string :=
  if String.prefix pat s
  then rep +:+ String.substring (String.length pat)
                                (String.length s - String.length pat) s
  else match s with
       | EmptyString => EmptyString
       | String c s' => String c (replace pat rep s')
       end.

(** [a.join(sep)] on strings. *)
Fixpoint join (sep : string) (l : list string) : string :=
  match l with
  | [] => ""
  | [x] => x
  | x :: l' => x +:+ sep +:+ join sep l'
  end.

(** *** [parseInt(s)] without a radix *)

Definition is_space (c : ascii) : bool :=
  bool_decide (nat_of_ascii c ∈ [9; 10; 11; 12; 13; 32; 160]).

Fixpoint skip_spaces (s : string) : string :=
  match s with
  | String c s' => if is_space c then skip_spaces s' else s
  | EmptyString => s
  end.

Definition digit_value (radix : nat) (c : ascii) : option nat :=
  let n := nat_of_ascii c in
  let d := if bool_decide (48 ≤ n ≤ 57)%nat then Some (n - 48)
           else if bool_decide (97 ≤ n ≤ 122)%nat then Some (n - 87)
           else if bool_decide (65 ≤ n ≤ 90)%nat then Some (n - 55)
           else None in
  match d with
  | Some v => if bool_decide (v < radix)%nat then Some v else None
  | None => None
  end.

(** The value of the longest prefix of digits, [None] when it is empty. *)
Fixpoint digits_prefix (radix : nat) (acc : option Z) (s : string)
  : option Z :=
  match s with
  | EmptyString => acc
  | String c s' =>
      match digit_value radix c with
      | Some d =>
          digits_prefix radix
            (Some (default 0 acc * Z.of_nat radix + Z.of_nat d)%Z) s'
      | None => acc
      end
  end.

(** A leading sign, and whether it is a minus. *)
Definition strip_sign (s : string) : bool * string :=
  match s with
  | String c s' =>
      if Ascii.eqb c "-" then (true, s')
      else if Ascii.eqb c "+" then (false, s')
      else (false, s)
  | EmptyString => (false, s)
  end.

(** A leading [0x] or [0X] selects radix 16, else the radix is 10. *)
Definition strip_prefix (s : string) : nat * string :=
  match s with
  | String c (String x s') =>
      if Ascii.eqb c "0" && (Ascii.eqb x "x" || Ascii.eqb x "X")
      then (16%nat, s') else (10%nat, s)
  | _ => (10%nat, s)
  end.

Definition parseInt (s : string) : float :=
  let '(neg, s) := strip_sign (skip_spaces s) in
  let '(radix, s) := strip_prefix s in
  match digits_prefix radix None s with
  | None => nan
  | Some z => if neg then (- of_Z z)%float else of_Z z
  end.

Definition decimal (c : ascii) : bool :=
  bool_decide (48 ≤ nat_of_ascii c ≤ 57)%nat.

(** *** Coercions *)

(** [if (v)]: the falsy values are undefined, null, false, 0, -0, NaN and
    the empty string. *)
Definition truthy (v : val) : bool :=
  match v with
  | VUndef | VNull => false
  | VBool b => b
  | VNum x => negb (PrimFloat.eqb x 0 || PrimFloat.is_nan x)
  | VStr s => negb (String.eqb s "")
  | VArr _ | VObj _ => true
  end.

(** [a === b].  Arrays and objects are equal when they are the same
    object; the operands compared by the program (a field against a filter
    value or against a literal) are never the same object. *)
Definition strict_eq (a b : val) : bool :=
  match a, b with
  | VUndef, VUndef | VNull, VNull => true
  | VBool x, VBool y => Bool.eqb x y
  | VNum x, VNum y => PrimFloat.eqb x y
  | VStr x, VStr y => String.eqb x y
  | _, _ => false
  end.

Section WithHost.
Context (h : Host).

(** [String(v)], as [toString()] gives it for the values that have one;
    inside an array, null and undefined print empty. *)
Fixpoint ToString (v : val) : string :=
  match v with
  | VUndef => "undefined"
  | VNull => "null"
  | VBool true => "true"
  | VBool false => "false"
  | VNum x => Number_toString h x
  | VStr s => s
  | VArr l =>
      join "," ((λ x, match x with
                      | VUndef | VNull => ""
                      | _ => ToString x
                      end) <$> l)
  | VObj _ => "[object Object]"
  end.

(** [a.join(sep)] on values. *)
Definition array_join (sep : string) (l : list val) : string :=
  join sep ((λ x, match x with
                  | VUndef | VNull => ""
                  | _ => ToString x
                  end) <$> l).

(** [v.toString()], the method call, on a value that is neither undefined
    nor null.  A string, a number and a boolean answer with [String(v)].  A
    plain object answers ["[object Object]"] with the method it inherits;
    a member named [toString] of its own stands in the way of that method
    and, no value of [val] being a function, cannot be called: the call
    throws.  An array joins its elements with [","], null and undefined
    printing empty and every other element being converted in the same
    way. *)
Definition join_all (sep : string) (l : list (result string))
  : result string :=
  match foldr (λ r acc,
                 match r, acc with
                 | Ok s, Ok ss => Ok (s :: ss)
                 | Throw e, _ => Throw e
                 | _, Throw e => Throw e
                 end) (Ok []) l with
  | Ok ss => Ok (join sep ss)
  | Throw e => Throw e
  end.

Fixpoint toString_call (v : val) : result string :=
  match v with
  | VObj l =>
      if existsb (λ p, String.eqb (fst p) "toString") l
      then Throw TypeError else Ok "[object Object]"
  | VArr l =>
      join_all "," ((λ x, match x with
                          | VUndef | VNull => Ok ""
                          | _ => toString_call x
                          end) <$> l)
  | _ => Ok (ToString v)
  end.

Definition ToNumber (v : val) : float :=
  match v with
  | VUndef => nan
  | VNull => 0
  | VBool b => if b then 1 else 0
  | VNum x => x
  | VStr s => StringToNumber h s
  | VArr _ | VObj _ => StringToNumber h (ToString v)
  end.

(** [a - b] and [a * b] *)
Definition sub (a b : val) : float := (ToNumber a - ToNumber b)%float.
Definition mul (a b : val) : float := (ToNumber a * ToNumber b)%float.

(** [a + b]: concatenation as soon as one operand is a string after
    conversion to a primitive, numeric addition otherwise. *)
Definition add (a b : val) : val :=
  let prim v := match v with
                | VArr _ | VObj _ => VStr (ToString v)
                | _ => v
                end in
  match prim a, prim b with
  | VStr x, y => VStr (x +:+ ToString y)
  | x, VStr y => VStr (ToString x +:+ y)
  | x, y => VNum (ToNumber x + ToNumber y)%float
  end.

(** The array index a property key denotes, if any. *)
Definition index_of_key (k : val) : option nat :=
  match k with
  | VNum x =>
      match trunc x with
      | Some z => if is_integral x && (0 <=? z)%Z then Some (Z.to_nat z)
                  else None
      | None => None
      end
  | VStr s =>
      (* a canonical numeric string: the decimal form of a natural number *)
      match digits_prefix 10 None s with
      | Some z => if String.eqb (pretty (Z.to_nat z)) s then Some (Z.to_nat z)
                  else None
      | None => None
      end
  | _ => None
  end.

(** [o[k]] on own data properties: the cells and the length of an array,
    the code units and the length of a string, the members of an object.
    Reading a property of undefined or null throws.  The members a value
    inherits from its prototype (methods such as [toString], or
    [constructor]) are not data and are outside the model: [get] answers as
    the program does where the lookup is decided by own members, which the
    properties that depend on it require ([own_lookup] below). *)
Definition get (o : val) (k : val) : result val :=
  match o with
  | VUndef | VNull => Throw TypeError
  | VArr l =>
      match index_of_key k with
      | Some i => Ok (default VUndef (l !! i))
      | None =>
          if String.eqb (ToString k) "length"
          then Ok (VNum (of_Z (Z.of_nat (length l)))) else Ok VUndef
      end
  | VStr s =>
      match index_of_key k with
      | Some i =>
          Ok (match String.get i s with
              | Some c => VStr (String c "")
              | None => VUndef
              end)
      | None =>
          if String.eqb (ToString k) "length"
          then Ok (VNum (of_Z (Z.of_nat (String.length s))))
          else Ok VUndef
      end
  | VObj l =>
      let name := ToString k in
      Ok (default VUndef (snd <$> find (λ p, String.eqb (fst p) name) l))
  | VBool _ | VNum _ => Ok VUndef
  end.

End WithHost.

End JS.
Import JS.

(** ** Events, the store and the diagnostics list *)

(** An entry of the global [errors] list. *)
Record diag : Type := Diag {
  d_type : string;
  d_function : string;
  d_message : string;
  d_data : list (string * val)
}.

(** [start] and [end] are declared [number] and hold a number or null
    ([None]) at every place that writes them. *)
Definition num_val (x : option float) : val :=
  match x with
  | Some n => VNum n
  | None => VNull
  end.

(** [class Chrono] *)
Record Chrono : Type := {
  type : val;
  key : val;
  title : val;
  description : val;
  start : option float;
  end_ : option float;
  duration : float;
  tags : val;
  myPrimaryTagKey : val
}.

Definition set_type (v : val) (c : Chrono) : Chrono :=
  {| type := v; key := key c; title := title c; description := description c;
     start := start c; end_ := end_ c; duration := duration c; tags := tags c;
     myPrimaryTagKey := myPrimaryTagKey c |}.
Definition set_key (v : val) (c : Chrono) : Chrono :=
  {| type := type c; key := v; title := title c; description := description c;
     start := start c; end_ := end_ c; duration := duration c; tags := tags c;
     myPrimaryTagKey := myPrimaryTagKey c |}.
Definition set_title (v : val) (c : Chrono) : Chrono :=
  {| type := type c; key := key c; title := v; description := description c;
     start := start c; end_ := end_ c; duration := duration c; tags := tags c;
     myPrimaryTagKey := myPrimaryTagKey c |}.
Definition set_description (v : val) (c : Chrono) : Chrono :=
  {| type := type c; key := key c; title := title c; description := v;
     start := start c; end_ := end_ c; duration := duration c; tags := tags c;
     myPrimaryTagKey := myPrimaryTagKey c |}.
Definition set_end (v : option float) (c : Chrono) : Chrono :=
  {| type := type c; key := key c; title := title c;
     description := description c; start := start c; end_ := v;
     duration := duration c; tags := tags c;
     myPrimaryTagKey := myPrimaryTagKey c |}.
Definition set_duration (v : float) (c : Chrono) : Chrono :=
  {| type := type c; key := key c; title := title c;
     description := description c; start := start c; end_ := end_ c;
     duration := v; tags := tags c; myPrimaryTagKey := myPrimaryTagKey c |}.
Definition set_tags (v : val) (c : Chrono) : Chrono :=
  {| type := type c; key := key c; title := title c;
     description := description c; start := start c; end_ := end_ c;
     duration := duration c; tags := v;
     myPrimaryTagKey := myPrimaryTagKey c |}.
Definition set_myPrimaryTagKey (v : val) (c : Chrono) : Chrono :=
  {| type := type c; key := key c; title := title c;
     description := description c; start := start c; end_ := end_ c;
     duration := duration c; tags := tags c; myPrimaryTagKey := v |}.

Global Instance Chrono_inhabited : Inhabited Chrono :=
  populate {| type := VUndef; key := VUndef; title := VUndef;
              description := VUndef; start := None; end_ := None;
              duration := 0; tags := VUndef; myPrimaryTagKey := VUndef |}.

(** [c[k]] for a member name [k]: the data fields of the event, undefined
    for a name that is no member.  (The methods of the class are functions,
    which no filter value equals; they are outside the model.) *)
Definition field (c : Chrono) (k : string) : val :=
  if String.eqb k "type" then type c
  else if String.eqb k "key" then key c
  else if String.eqb k "title" then title c
  else if String.eqb k "description" then description c
  else if String.eqb k "start" then num_val (start c)
  else if String.eqb k "end" then num_val (end_ c)
  else if String.eqb k "duration" then VNum (duration c)
  else if String.eqb k "tags" then tags c
  else if String.eqb k "myPrimaryTagKey" then myPrimaryTagKey c
  else VUndef.

(** A reference to a [Chrono] object, and a reference to an array of them. *)
Abbreviation ref := nat (only parsing).
Abbreviation aref := nat (only parsing).

(** The mutable state: the [Chrono] objects, the arrays of them, the global
    [errors], and how many times [Math.random()] has been called. *)
Record world : Type := World {
  objects : list Chrono;
  arrays : list (list ref);
  errors : list diag;
  draws : nat
}.

(** Computations that read and write the state and may throw. *)
Definition M (A : Type) : Type := world → result A * world.

Global Instance M_ret : MRet M := λ A a w, (Ok a, w).
Global Instance M_bind : MBind M := λ A B f m w,
  match m w with
  | (Ok a, w') => f a w'
  | (Throw e, w') => (Throw e, w')
  end.

Definition throw {A : Type} (e : exn) : M A := λ w, (Throw e, w).
Definition lift {A : Type} (r : result A) : M A := λ w, (r, w).

Definition push_error (d : diag) : M unit := λ w,
  (Ok tt, World (objects w) (arrays w) (errors w ++ [d])%list (draws w)).

Definition get_world : M world := λ w, (Ok w, w).

Definition read_obj (r : ref) : M Chrono := λ w, (Ok (objects w !!! r), w).
Definition write_obj (r : ref) (c : Chrono) : M unit := λ w,
  (Ok tt, World (<[r := c]> (objects w)) (arrays w) (errors w) (draws w)).
Definition update_obj (r : ref) (f : Chrono → Chrono) : M unit :=
  c ← read_obj r; write_obj r (f c).

Definition read_arr (a : aref) : M (list ref) := λ w,
  (Ok (arrays w !!! a), w).
Definition write_arr (a : aref) (l : list ref) : M unit := λ w,
  (Ok tt, World (objects w) (<[a := l]> (arrays w)) (errors w) (draws w)).
Definition alloc_arr (l : list ref) : M aref := λ w,
  (Ok (length (arrays w)),
   World (objects w) (arrays w ++ [l])%list (errors w) (draws w)).
Definition alloc_obj (c : Chrono) : M ref := λ w,
  (Ok (length (objects w)),
   World (objects w ++ [c])%list (arrays w) (errors w) (draws w)).

(** ** [class Chrono] *)

Definition to_num (x : option float) : float := default 0%float x.

Definition falsy_num (x : option float) : bool := negb (truthy (num_val x)).

(** [constructor(type, key, title, description, start, end = null, tags)].
    The argument [tags] is not stored: no statement of the constructor
    assigns [this.tags], which stays undefined, as [myPrimaryTagKey]
    does. *)
Definition Chrono_new (type key title description : val)
    (start end_ : option float) (tags : val) : M Chrono :=
  let this_end :=
    if strict_eq (num_val end_) VNull || strict_eq (num_val end_) (VNum 0)
    then start else end_ in
  let this :=
    {| type := type; key := key; title := title; description := description;
       start := start; end_ := this_end;
       duration := (to_num this_end - to_num start)%float;
       tags := VUndef; myPrimaryTagKey := VUndef |} in
  (if falsy_num start
   then push_error
          (Diag "warn" "Chron.constructor" "invalid start time"
                [("start", num_val start); ("end", num_val this_end)])
   else mret tt);;
  mret this.

(** ** [class Map]: timestamps and field resolution *)

Section WithHost.
Context (h : Host).

(** [convertTimestamp(timestamp, format = 'C')] *)
Definition convertTimestamp (timestamp : val) (format : val) : M val :=
  let format := match format with VUndef => VStr "C" | _ => format end in
  if strict_eq timestamp VNull then
    push_error
      (Diag "error" "convertTimestamp" "invalid timestamp"
            [("timestamp", timestamp); ("format", format)]);;
    mret VNull
  else
    let timestamp :=
      match timestamp with
      | VStr s => VNum (parseInt s)
      | _ => timestamp
      end in
    if strict_eq format (VStr "pythonic") then
      mret (VNum (mul h timestamp (VNum 1000)))
    else if strict_eq format (VStr "C") then
      (* ticks to milliseconds, then the offset to the Unix epoch *)
      let timestamp := mul h timestamp (VNum 0.0001) in
      mret (VNum (timestamp - year1_local h)%float)
    else mret timestamp.

(** The loop of [getNestedValue]: [ret = ret[keys[i]]] for each key. *)
Fixpoint walk (ret : val) (keys : list val) : result val :=
  match keys with
  | [] => Ok ret
  | k :: keys' =>
      match get h ret k with
      | Ok v => walk v keys'
      | Throw e => Throw e
      end
  end.

(** The accessor of [getNestedValue(data, keys)], declared
    [string[] | string]. *)
Inductive keys_arg : Type :=
| Static (s : string)
| Keys (ks : list val).

Definition getNestedValue (data : val) (keys : keys_arg) : result val :=
  match keys with
  | Static s => Ok (VStr s)
  | Keys ks =>
      match walk data ks with
      | Ok ret =>
          if truthy ret then
            match toString_call h ret with
            | Ok s => Ok (VStr s)
            | Throw e => Throw e
            end
          else Ok VNull
      | Throw e => Throw e
      end
  end.

End WithHost.

(** ** Record conversion *)

Section Conversion.
Context (h : Host).

(** The global [timeOffset] as [convert()] or [getChronoSet()] leaves it:
    a number, the result of [convertTimestamp] on a string. *)
Context (timeOffset : float).

(** *** [Map.convertCsv] of src/chronovisor.ts *)

(** A field of the map is null ([None]) or the column to read. *)
Record CsvMap : Type := {
  csv_type : option val;
  csv_key : option val;
  csv_title : option val;
  csv_description : option val;
  csv_start : option val;
  csv_end : option val;
  csv_tags : option val;
  csv_firstRow : bool;
  csv_timestampFormat : val;
  csv_sep : string
}.

(** [(this.f === null) ? null : row[this.f]] *)
Definition csv_cell (f : option val) (row : val) : M val :=
  match f with
  | None => mret VNull
  | Some k => lift (get h row k)
  end.

(** [(this.f === null) ? null :
       Map.convertTimestamp(row[this.f], this.timestampFormat) - timeOffset] *)
Definition csv_time (f : option val) (format : val) (row : val)
  : M (option float) :=
  match f with
  | None => mret None
  | Some k =>
      cell ← lift (get h row k);
      t ← convertTimestamp h cell format;
      mret (Some (sub h t (VNum timeOffset)))
  end.

Definition convertCsv_row (m : CsvMap) (line : string) : M Chrono :=
  let row := VArr (VStr <$> split (csv_sep m) line) in
  type ← csv_cell (csv_type m) row;
  key ← csv_cell (csv_key m) row;
  title ← csv_cell (csv_title m) row;
  description ← csv_cell (csv_description m) row;
  start ← csv_time (csv_start m) (csv_timestampFormat m) row;
  end_ ← csv_time (csv_end m) (csv_timestampFormat m) row;
  tags ← csv_cell (csv_tags m) row;
  Chrono_new type key title description start end_ tags.

Fixpoint convert_rows {A : Type} (row : A → M Chrono) (data : list A)
  : M (list Chrono) :=
  match data with
  | [] => mret []
  | d :: data' => c ← row d; cs ← convert_rows row data'; mret (c :: cs)
  end.

Definition convertCsv (m : CsvMap) (data : list string) : M (list Chrono) :=
  convert_rows (convertCsv_row m) (drop (if csv_firstRow m then 1 else 0) data).

(** *** [Map.convert] of src/unnamed/part_003 *)

(** A value whose [typeof] is not ["object"]: undefined, a boolean, a
    number or a string. *)
Inductive primitive : Type :=
| PUndef
| PBool (b : bool)
| PNum (x : float)
| PStr (s : string).

Definition of_primitive (k : primitive) : val :=
  match k with
  | PUndef => VUndef
  | PBool b => VBool b
  | PNum x => VNum x
  | PStr s => VStr s
  end.

(** One accessor of a field.  When [typeof(accessor)] is ["object"] it is
    handed to [getNestedValue]: an array is a path of keys, and null makes
    [getNestedValue] read [null.length]; any other accessor is a key of the
    datum itself.  (An accessor that is an object but neither an array nor
    null is outside the model.) *)
Inductive accessor : Type :=
| Path (ks : list val)
| Null
| Key (k : primitive).

(** What a field of the map holds: a static string, an array of accessors,
    null, or something that is neither a string nor an object. *)
Inductive mapping : Type :=
| MStatic (s : string)
| MAccessors (accs : list accessor)
| MNull
| MOther.

Record Map : Type := {
  map_type : mapping;
  map_key : mapping;
  map_title : mapping;
  map_description : mapping;
  map_start : mapping;
  map_end : mapping;
  map_tags : mapping;
  firstRow : bool;
  timestampFormat : val;
  sep : string
}.

(** "Try to get the datum's value": [getNestedValue(datum, accessor)] when
    [typeof(accessor)] is ["object"], else [datum[accessor]]. *)
Definition accessed (datum : val) (a : accessor) : result val :=
  match a with
  | Path ks => getNestedValue h datum (Keys ks)
  | Null => Throw TypeError
  | Key k => get h datum (of_primitive k)
  end.

(** The inner loop over the accessors of one property: the first truthy
    value wins and the accessors after it are not looked at; null when
    there is none. *)
Fixpoint first_truthy (datum : val) (accs : list accessor) : result val :=
  match accs with
  | [] => Ok VNull
  | a :: accs' =>
      match accessed datum a with
      | Ok v => if truthy v then Ok v else first_truthy datum accs'
      | Throw e => Throw e
      end
  end.

(** One turn of [propertyLoop].  [typeof null] is ["object"], and iterating
    null throws. *)
Definition property (m : mapping) (datum : val) : result val :=
  match m with
  | MStatic s => Ok (VStr s)
  | MAccessors accs => first_truthy datum accs
  | MNull => Throw TypeError
  | MOther => Ok VNull
  end.

Definition convert_row (m : Map) (datum : val) : M Chrono :=
  let datum := match datum with
               | VStr s => VArr (VStr <$> split (sep m) s)
               | _ => datum
               end in
  type ← lift (property (map_type m) datum);
  key ← lift (property (map_key m) datum);
  title ← lift (property (map_title m) datum);
  description ← lift (property (map_description m) datum);
  start ← lift (property (map_start m) datum);
  end_ ← lift (property (map_end m) datum);
  tags ← lift (property (map_tags m) datum);
  s ← convertTimestamp h start (timestampFormat m);
  e ← convertTimestamp h end_ (timestampFormat m);
  Chrono_new type key title description
             (Some (sub h s (VNum timeOffset)))
             (Some (sub h e (VNum timeOffset))) tags.

Definition convert (m : Map) (data : list val) : M (list Chrono) :=
  convert_rows (convert_row m) (drop (if firstRow m then 1 else 0) data).

End Conversion.

(** ** Serialisation of one event *)

Section Serialisation.
Context (h : Host).

(** The time value of [new Date(t)] for a number or null: NaN (an invalid
    date) outside ±8.64e15, else the integer part. *)
Definition TimeClip (t : option float) : float :=
  match trunc (to_num t) with
  | Some z => if (Z.abs z <=? 8640000000000000)%Z then of_Z z else nan
  | None => nan
  end.

Definition pad (width : nat) (n : Z) : string :=
  let s := pretty (Z.to_nat n) in
  String.concat "" (replicate (width - String.length s) "0") +:+ s.

(** [d.toISOString().split(/[TZ]/)[1]]: the time of day, [HH:mm:ss.sss];
    [toISOString] throws on an invalid date. *)
Definition time_of_day (t : float) : result string :=
  match trunc t with
  | Some z =>
      let ms := (z mod 86400000)%Z in
      Ok (pad 2 (ms / 3600000) +:+ ":" +:+ pad 2 (ms / 60000 mod 60) +:+ ":"
          +:+ pad 2 (ms / 1000 mod 60) +:+ "." +:+ pad 3 (ms mod 1000))
  | None => Throw RangeError
  end.

(** [this.f ? this.f.replace(sep, (sep === "," ? ";" : ",")) : ""].  Only a
    string has [replace]; calling it on another truthy value throws. *)
Definition escaped (sep : string) (f : val) : result val :=
  if truthy f then
    match f with
    | VStr s => Ok (VStr (replace sep (if String.eqb sep "," then ";" else ",") s))
    | _ => Throw TypeError
    end
  else Ok (VStr "").

(** The array [csv] that [toCsv] builds, before it is joined. *)
Definition toCsv_cells (c : Chrono) (sep : string) : M (list val) :=
  (if falsy_num (start c) || falsy_num (end_ c)
   then push_error
          (Diag "error" "toCsv"
                "couldn't convert start or end time to Date object"
                [("start", num_val (start c)); ("end", num_val (end_ c))])
   else mret tt);;
  let s := if falsy_num (start c) then None else Some (TimeClip (start c)) in
  let e := if falsy_num (end_ c) then None else Some (TimeClip (end_ c)) in
  let hms d := match d with
               | Some t => hms ← lift (time_of_day t); mret (VStr hms)
               | None => mret (VStr "")
               end in
  let secs d := match d with
                | Some t => VNum (t / 1000)%float
                | None => VStr ""
                end in
  title ← lift (escaped sep (title c));
  description ← lift (escaped sep (description c));
  s_hms ← hms s;
  e_hms ← hms e;
  tags ← lift (escaped sep (tags c));
  mret [title; description; s_hms; secs s; e_hms; secs e;
        VNum (duration c); VStr ""; tags].

(** [toCsv(sep = ",")] *)
Definition toCsv (c : Chrono) (sep : string) : M string :=
  cells ← toCsv_cells c sep;
  mret (array_join h sep cells).

End Serialisation.

(** ** Collections of events *)

Section Collections.
Context (h : Host).


(** [getUuid()]: every [x] and [y] of the template is replaced by a
    hexadecimal digit drawn with [Math.random() * 16 | 0]. *)
Definition hex (v : Z) : string :=
  HexadecimalString.NilZero.string_of_int (Z.to_hex_int v).

Definition uuid_template : string := "xxxxxxxx-xxxx-4xxx-yxxx-xxxxxxxxxxxx".

Fixpoint uuid_from (n : nat) (template : string) : string * nat :=
  match template with
  | EmptyString => ("", n)
  | String c t =>
      if Ascii.eqb c "x" || Ascii.eqb c "y" then
        let r := ToInt32 (Math_random h n * 16)%float in
        let v := if Ascii.eqb c "x" then r else Z.lor (Z.land r 3) 8 in
        let '(rest, n') := uuid_from (S n) t in
        (hex v +:+ rest, n')
      else
        let '(rest, n') := uuid_from n t in
        (String c rest, n')
  end.

Definition getUuid : M string := λ w,
  let '(u, n) := uuid_from (draws w) uuid_template in
  (Ok u, World (objects w) (arrays w) (errors w) n).

(** [class ChronoSet]: two fields, each a reference to an array. *)
Record ChronoSet : Type := {
  chronos : aref;
  chronos_backup : aref
}.

(** [constructor(chronos)]: both fields receive the argument.  (The static
    list [ChronoSet.sets], to which the constructor also appends, is read
    by nothing modelled here and is left out.) *)
Definition ChronoSet_new (chronos : aref) : ChronoSet :=
  {| chronos := chronos; chronos_backup := chronos |}.

(** *** [Jsonify] *)




(** *** [FindSuccessivePairs] *)

(** A filter object: its own members, in enumeration order. *)
Definition filter_obj : Type := list (string * val).

Definition member (o : filter_obj) (k : string) : val :=
  default VUndef (snd <$> find (λ p, String.eqb (fst p) k) o).

(** [flags.IS_SAME_AS], the first member of a numeric enum. *)
Definition IS_SAME_AS : val := VNum 0.

(** [a.indexOf(x)], which is also what [getIndecies] computes for each
    element: the first position holding the same object, or -1. *)
Definition indexOf (l : list ref) (x : option ref) : Z :=
  match x with
  | Some r =>
      match list_find (λ y, y = r) l with
      | Some (i, _) => Z.of_nat i
      | None => (-1)%Z
      end
  | None => (-1)%Z
  end.

Definition getIndecies (A B : list ref) : list Z :=
  (λ a, indexOf B (Some a)) <$> A.

(** [a.splice(i, 1)] *)
Definition splice1 (i : Z) (l : list ref) : list ref :=
  let len := Z.of_nat (length l) in
  let at_ := if (i <? 0)%Z then Z.max (len + i) 0 else Z.min i len in
  delete (Z.to_nat at_) l.

(** The successive [filter] calls, one for each member of the filter. *)
Definition matching (objs : list Chrono) (criteria : list (string * val))
    (l : list ref) : list ref :=
  foldl (λ l '(k, v),
           filter (λ r, strict_eq (field (objs !!! r) k) v = true) l)
        l criteria.

(** With no member the array itself is returned, not a copy. *)
Definition select (a : aref) (criteria : list (string * val)) : M aref :=
  match criteria with
  | [] => mret a
  | _ =>
      l ← read_arr a;
      w ← get_world;
      alloc_arr (matching (objects w) criteria l)
  end.

(** The members of the end filter, a member that is [IS_SAME_AS] standing
    for the member of the same name of the start filter. *)
Definition end_criteria (startKey endKey : filter_obj) : list (string * val) :=
  (λ '(k, v), (k, if strict_eq v IS_SAME_AS then member startKey k else v))
    <$> endKey.

(** The scan for the end of one start, over the elements of [ends] from
    position [i] on; [end_] is the candidate so far.  The result is the
    candidate kept and, when the scan stops at the [else] branch, the
    position that is spliced out. *)
Fixpoint scan (cs : list ref) (index : Z) (i : nat) (end_ : option ref)
    (rest : list ref) : option ref * option nat :=
  match rest with
  | [] => (end_, None)
  | e :: rest' =>
      if (i =? 0)%nat || (indexOf cs end_ <=? index)%Z
      then scan cs index (S i) (Some e) rest'
      else (end_, Some (i - 1)%nat)
  end.

(** Reading a member of [end], which is undefined when [ends] is empty. *)
Definition of_end {A : Type} (end_ : option ref) (f : Chrono → A) : M A :=
  match end_ with
  | Some e => c ← read_obj e; mret (f c)
  | None => throw TypeError
  end.

(** "Set Properties - prefer start's properties over end's" *)
Definition merge (start_ : ref) (end' : option ref) : M unit :=
  let prefer (f : Chrono → val) (set : val → Chrono → Chrono) : M unit :=
    s ← read_obj start_;
    v ← (if truthy (f s) then mret (f s) else of_end end' f);
    update_obj start_ (set v) in
  prefer type set_type;;
  prefer key set_key;;
  prefer title set_title;;
  prefer description set_description;;
  e ← of_end end' start; update_obj start_ (set_end e);;
  s ← read_obj start_;
  update_obj start_ (set_duration (to_num (end_ s) - to_num (start s))%float);;
  s ← read_obj start_;
  t ← of_end end' tags; update_obj start_ (set_tags (add h (tags s) t));;
  prefer myPrimaryTagKey set_myPrimaryTagKey.

(** [for (let start of pairs)]: the iterator reads the array anew at every
    turn.  No array grows inside the loop, so [fuel], the length of [pairs]
    at entry, is never exhausted before the array is. *)
Fixpoint form_pairs (fuel : nat) (k : nat) (this_chronos pairs ends : aref)
  : M unit :=
  match fuel with
  | O => mret tt
  | S fuel' =>
      ps ← read_arr pairs;
      match ps !! k with
      | None => mret tt
      | Some start_ =>
          cs ← read_arr this_chronos;
          es ← read_arr ends;
          let index := indexOf cs (Some start_) in
          let '(end', cut) := scan cs index 0 None es in
          match cut with
          | Some i => write_arr ends (delete i es)
          | None => mret tt
          end;;
          merge start_ end';;
          form_pairs fuel' (S k) this_chronos pairs ends
      end
  end.

(** [indeciesToPop.sort((a, b) => b-a)] *)
Definition sort_desc (l : list Z) : list Z :=
  @merge_sort Z (λ a b, (b ≤ a)%Z) (λ a b, decide (b ≤ a)%Z) l.

(** [for (let i of indeciesToPop) chronos.splice(i, 1)] *)
Fixpoint pop_all (chronos : aref) (indeciesToPop : list Z) : M unit :=
  match indeciesToPop with
  | [] => mret tt
  | i :: rest =>
      cs ← read_arr chronos;
      write_arr chronos (splice1 i cs);;
      pop_all chronos rest
  end.

(** Everything up to and including the removal of the starts and ends from
    [chronos]; the result is [pairs]. *)
Definition consolidate (chronos : aref) (startKey endKey : filter_obj)
  : M aref :=
  starts ← select chronos startKey;
  ss ← read_arr starts;
  cs ← read_arr chronos;
  let indeciesToPop := getIndecies ss cs in
  ends ← select chronos (end_criteria startKey endKey);
  es ← read_arr ends;
  cs ← read_arr chronos;
  let indeciesToPop := (indeciesToPop ++ getIndecies es cs)%list in
  let pairs := starts in
  ps ← read_arr pairs;
  form_pairs (length ps) 0 chronos pairs ends;;
  pop_all chronos (sort_desc indeciesToPop);;
  mret pairs.

(** The method of [ChronoSet]: [this.chronos] becomes a new array, the
    remaining events followed by the pairs. *)
Definition FindSuccessivePairs (this : ChronoSet)
    (startKey endKey : filter_obj) : M (aref * ChronoSet) :=
  pairs ← consolidate (chronos this) startKey endKey;
  cs ← read_arr (chronos this);
  ps ← read_arr pairs;
  all ← alloc_arr (cs ++ ps)%list;
  mret (pairs,
        {| chronos := all; chronos_backup := chronos_backup this |}).

(** The static function of the earlier version (src/unnamed/part_002), on
    the caller's array. *)
Definition FindSuccessivePairs_static (chronos : aref)
    (startKey endKey : filter_obj) (returnAll : bool) : M aref :=
  pairs ← consolidate chronos startKey endKey;
  if returnAll then
    cs ← read_arr chronos; ps ← read_arr pairs; alloc_arr (cs ++ ps)%list
  else mret pairs.

End Collections.

(** ** Scenarios *)

(** An event as the converter builds it for a row with a type, a description
    and a start time. *)
Definition event (ty desc : string) (t : float) : Chrono :=
  {| type := VStr ty; key := VNull; title := VNull; description := VStr desc;
     start := Some t; end_ := Some t; duration := 0; tags := VUndef;
     myPrimaryTagKey := VUndef |}.


(** An event that has only a title, from 00:00:01 to 00:00:02.5. *)
Definition titled (t : string) : Chrono :=
  {| type := VNull; key := VNull; title := VStr t; description := VNull;
     start := Some 1000%float; end_ := Some 2500%float; duration := 1500;
     tags := VUndef; myPrimaryTagKey := VUndef |}.

(** A state whose only array, at reference 0, holds the given events in
    order, each a separate object. *)
Definition collection (cs : list Chrono) : world :=
  World cs [seq 0 (length cs)] [] 0.

Definition by_start : filter_obj := [("type", VStr "start")].
Definition by_stop : filter_obj := [("type", VStr "stop")].

(** The pairing scenario of the specification. *)
Definition two_pairs : world :=
  collection [event "start" "A" 10; event "stop" "A" 50;
              event "start" "B" 20; event "stop" "B" 60].

Definition lone_start : world := collection [event "start" "A" 10].

Definition lone_stop : world :=
  collection [event "stop" "A" 10; event "note" "A" 10].

Definition two_starts_one_stop : world :=
  collection [event "start" "A" 10; event "start" "B" 20;
              event "stop" "B" 60].

Definition stop_before_start : world :=
  collection [event "stop" "A" 10; event "start" "A" 20].

(** A map of the later converter with the type in column 0 and every other
    field left without accessor, as [getMapFromDOM] builds it. *)
Definition type_only : Map :=
  {| map_type := MAccessors [Key (PNum 0)]; map_key := MAccessors [];
     map_title := MAccessors []; map_description := MAccessors [];
     map_start := MAccessors []; map_end := MAccessors [];
     map_tags := MAccessors []; firstRow := false;
     timestampFormat := VStr "pythonic"; sep := "," |}.

(** The same map with a null start, as an imported map file can hold. *)
Definition null_start : Map :=
  {| map_type := MAccessors [Key (PNum 0)]; map_key := MAccessors [];
     map_title := MAccessors []; map_description := MAccessors [];
     map_start := MNull; map_end := MAccessors [];
     map_tags := MAccessors []; firstRow := false;
     timestampFormat := VStr "pythonic"; sep := "," |}.

(** The same map for [convertCsv], where an unmapped field is null. *)
Definition csv_type_only : CsvMap :=
  {| csv_type := Some (VNum 0); csv_key := None; csv_title := None;
     csv_description := None; csv_start := None; csv_end := None;
     csv_tags := None; csv_firstRow := false;
     csv_timestampFormat := VStr "pythonic"; csv_sep := "," |}.

Definition no_state : world := World [] [] [] 0.





(** ** Vocabulary of the properties *)

(** [duration] holds the number that [end - start] evaluates to, null
    counting as 0 in the subtraction.  This is identity of the stored
    doubles, which NaN satisfies too, not the comparison [==] of the
    program ([duration_eq] below). *)
Definition consistent (c : Chrono) : Prop :=
  duration c = (to_num (end_ c) - to_num (start c))%float.

Definition all_consistent (w : world) : Prop := Forall consistent (objects w).

(** The comparison [duration == end - start] as the program would make it:
    numbers are compared as IEEE-754 doubles, so it is false as soon as one
    side is NaN. *)
Definition duration_eq (c : Chrono) : bool :=
  PrimFloat.eqb (duration c) (to_num (end_ c) - to_num (start c)).

(** [duration] is the number [end - start] evaluates to, and the comparison
    [duration == end - start] holds exactly when that number is not NaN. *)
Definition duration_kept (c : Chrono) : Prop :=
  consistent c
  ∧ duration_eq c
    = negb (PrimFloat.is_nan (to_num (end_ c) - to_num (start c))).

(** Every object but the one at [r] is consistent. *)
Definition consistent_but (r : ref) (w : world) : Prop :=
  ∀ i c, objects w !! i = Some c → i ≠ r → consistent c.

(** A computation started in a state of [P] ends in a state of [Q] when it
    returns and in a state of [E] when it throws. *)
Definition triple {A : Type} (P : world → Prop) (m : M A)
    (Q : A → world → Prop) (E : world → Prop) : Prop :=
  ∀ w, P w → match m w with
             | (Ok a, w') => Q a w'
             | (Throw _, w') => E w'
             end.





(** The names a plain object inherits, for which [name in keys] holds
    before any key is counted. *)
Definition Object_prototype_names : list string :=
  ["constructor"; "hasOwnProperty"; "isPrototypeOf"; "propertyIsEnumerable";
   "toLocaleString"; "toString"; "valueOf"; "__proto__";
   "__defineGetter__"; "__defineSetter__"; "__lookupGetter__";
   "__lookupSetter__"].

(** ** The rest of the export: the old CSV format and [Csvify] *)

Section CsvExport.
Context (h : Host).

(** The array [csv] that [toOldCsv] builds, before it is joined: the two
    times of day, then title, tags, description, title again and type. *)
Definition toOldCsv_cells (c : Chrono) (sep : string) : M (list val) :=
  (if falsy_num (start c) || falsy_num (end_ c)
   then push_error
          (Diag "error" "toOldCsv"
                "couldn't convert start or end time to Date object"
                [("start", num_val (start c)); ("end", num_val (end_ c))])
   else mret tt);;
  let s := if falsy_num (start c) then None else Some (TimeClip (start c)) in
  let e := if falsy_num (end_ c) then None else Some (TimeClip (end_ c)) in
  let hms d := match d with
               | Some t => hms ← lift (time_of_day t); mret (VStr hms)
               | None => mret (VStr "")
               end in
  s_hms ← hms s;
  e_hms ← hms e;
  title_ ← lift (escaped sep (title c));
  annotation ← lift (escaped sep (tags c));
  category ← lift (escaped sep (description c));
  category2 ← lift (escaped sep (title c));
  category3 ← lift (escaped sep (type c));
  mret [s_hms; e_hms; title_; annotation; category; category2; category3].

(** [toOldCsv(sep = ",")] *)
Definition toOldCsv (c : Chrono) (sep : string) : M string :=
  cells ← toOldCsv_cells c sep;
  mret (array_join h sep cells).

Definition csv_header : string :=
  "Title,Description,Start(HMS),Start(sec),End(HMS),End(sec),Duration(sec),PrimaryTag,Tags".

Definition old_csv_header : string :=
  "StartTime,EndTime,Title,Annotation,MainCategory,Category2,Category3".

(** The line break ["\r\n"]. *)
Definition crlf : string := String "013" (String "010" "").

(** [for (let i = 0; i < chronos.length; i++) csv.push(chronos[i].row())]:
    no row writes an array, so the events visited are those the array
    holds at entry. *)
Fixpoint Csvify_rows (row : Chrono → M string) (rs : list ref)
  : M (list string) :=
  match rs with
  | [] => mret []
  | r :: rs' =>
      c ← read_obj r;
      line ← row c;
      lines ← Csvify_rows row rs';
      mret (line :: lines)
  end.

(** [Csvify(useOldFormat = false)] of [ChronoSet]; the static
    [Chrono.Csvify(chronos, useOldFormat)] of src/chronovisor.ts is the same
    function of the array. *)
Definition Csvify (this : ChronoSet) (useOldFormat : bool) : M string :=
  rs ← read_arr (chronos this);
  if useOldFormat then
    lines ← Csvify_rows (λ c, toOldCsv c ",") rs;
    mret (join crlf (old_csv_header :: lines))
  else
    lines ← Csvify_rows (λ c, toCsv h c ",") rs;
    mret (join crlf (csv_header :: lines)).

End CsvExport.

(** ** [Map.convertJson] of src/chronovisor.ts *)

Section JsonConversion.
Context (h : Host) (timeOffset : float).

(** A field of the map is null ([None]) or what [getNestedValue] takes: a
    static string or a path of keys. *)
Record JsonMap : Type := {
  json_type : option keys_arg;
  json_key : option keys_arg;
  json_title : option keys_arg;
  json_description : option keys_arg;
  json_start : option keys_arg;
  json_end : option keys_arg;
  json_tags : option keys_arg;
  json_firstRow : bool;
  json_timestampFormat : val
}.

(** [(this.f === null) ? null : Map.getNestedValue(data[i], this.f)] *)
Definition json_field (f : option keys_arg) (datum : val) : M val :=
  match f with
  | None => mret VNull
  | Some keys => lift (getNestedValue h datum keys)
  end.

(** [(this.f === null) ? null :
       Map.convertTimestamp(Map.getNestedValue(data[i], this.f),
                            this.timestampFormat) - timeOffset] *)
Definition json_time (f : option keys_arg) (format : val) (datum : val)
  : M (option float) :=
  match f with
  | None => mret None
  | Some keys =>
      v ← lift (getNestedValue h datum keys);
      t ← convertTimestamp h v format;
      mret (Some (sub h t (VNum timeOffset)))
  end.

Definition convertJson_row (m : JsonMap) (datum : val) : M Chrono :=
  type ← json_field (json_type m) datum;
  key ← json_field (json_key m) datum;
  title ← json_field (json_title m) datum;
  description ← json_field (json_description m) datum;
  start ← json_time (json_start m) (json_timestampFormat m) datum;
  end_ ← json_time (json_end m) (json_timestampFormat m) datum;
  tags ← json_field (json_tags m) datum;
  Chrono_new type key title description start end_ tags.

Definition convertJson (m : JsonMap) (data : list val) : M (list Chrono) :=
  convert_rows (convertJson_row m)
               (drop (if json_firstRow m then 1 else 0) data).

End JsonConversion.

(** ** Vocabulary of the further properties *)

(** The state [w'] is the state [w] with the diagnostics [ds] appended to
    [errors]. *)
Definition logged (ds : list diag) (w w' : world) : Prop :=
  w' = World (objects w) (arrays w) (errors w ++ ds)%list (draws w).


(** A field of a map as [getMapFromDOM] builds it for a CSV file: a static
    string, or a list of column indices, which are numbers. *)
Definition columns (m : mapping) : Prop :=
  match m with
  | MStatic _ => True
  | MAccessors accs => Forall (λ a, ∃ x, a = Key (PNum x)) accs
  | MNull | MOther => False
  end.

Definition column_map (m : Map) : Prop :=
  columns (map_type m) ∧ columns (map_key m) ∧ columns (map_title m)
  ∧ columns (map_description m) ∧ columns (map_start m)
  ∧ columns (map_end m) ∧ columns (map_tags m).

(** A computation that returns in every state, with a result of [Q], and
    writes nothing but diagnostics. *)
Definition returns {A : Type} (m : M A) (Q : A → Prop) : Prop :=
  ∀ w, ∃ a ds w', m w = (Ok a, w') ∧ logged ds w w' ∧ Q a.

(** A computation that writes nothing but diagnostics, whether it returns
    or throws. *)
Definition logs_only {A : Type} (m : M A) : Prop :=
  ∀ w, ∃ ds, logged ds w (m w).2.

(** A computation that throws nothing but a [TypeError]. *)
Definition only_TypeError {A : Type} (m : M A) : Prop :=
  ∀ w e, (m w).1 = Throw e → e = TypeError.

(** A computation whose result does not depend on the state it is run
    in. *)
Definition state_blind {A : Type} (m : M A) : Prop :=
  ∀ w w0, (m w).1 = (m w0).1.

(** The fields of a [JsonMap], in the order [convertJson] resolves them. *)
Definition json_fields (m : JsonMap) : list (option keys_arg) :=
  [json_type m; json_key m; json_title m; json_description m;
   json_start m; json_end m; json_tags m].

(** [new Date(t)] is a valid date: its time value is not NaN. *)
Definition valid_date (t : option float) : Prop :=
  is_Some (trunc (TimeClip t)).

(** The diagnostic of [toCsv] and [toOldCsv] for an event without start or
    without end. *)
Definition no_date (function : string) (c : Chrono) : diag :=
  Diag "error" function "couldn't convert start or end time to Date object"
       [("start", num_val (start c)); ("end", num_val (end_ c))].

(** A text field that [toCsv] can write: a string, or a falsy value. *)
Definition text (v : val) : Prop :=
  truthy v = false ∨ ∃ s, v = VStr s.

(** How a character of a UUID relates to the character of the template at
    the same place: a hexadecimal digit for [x], one of 8, 9, a, b for [y],
    the same character otherwise. *)
Definition uuid_char (t c : ascii) : Prop :=
  if Ascii.eqb t "x" then c ∈ list_ascii_of_string "0123456789abcdef"
  else if Ascii.eqb t "y" then c ∈ list_ascii_of_string "89ab"
  else c = t.

(** A host whose [Math.random()] always answers 0.5. *)
Definition fixed_host : Host :=
  {| Number_toString := λ _, ""; StringToNumber := λ _, nan;
     year1_local := 0; Date_getMinutes := λ _, 0%float;
     Date_getSeconds := λ _, 0%float; Math_random := λ _, 0.5%float |}.

(** An event that [toCsv] can write: its texts are strings or falsy, and
    its start and its end, where truthy, are valid dates. *)
Definition writable (c : Chrono) : Prop :=
  text (title c) ∧ text (description c) ∧ text (tags c)
  ∧ (falsy_num (start c) = false → valid_date (start c))
  ∧ (falsy_num (end_ c) = false → valid_date (end_ c)).

(** [Math.random() * 16 | 0] at the [n]-th draw. *)
Definition nibble (h : Host) (n : nat) : Z :=
  ToInt32 (Math_random h n * 16)%float.

(** A host in which every draw gives the value of one hexadecimal digit,
    as a [Math.random()] in the interval from 0 to 1, 1 excluded, does. *)
Definition random_in_range (h : Host) : Prop :=
  ∀ n, (0 ≤ nibble h n < 16)%Z.

(** White space, as [parseInt] skips it. *)
Definition white_space (s : string) : Prop :=
  forallb is_space (list_ascii_of_string s) = true.

(** Zeros only. *)
Definition zeros_only (s : string) : Prop :=
  forallb (λ c, Ascii.eqb c "0") (list_ascii_of_string s) = true.

(** A decimal numeral of the integer [n]: white space, a sign that may be
    missing, leading zeros, and the decimal digits of [n]. *)
Definition numeral (spaces sign zeros : string) (n : N) : string :=
  spaces +:+ sign +:+ zeros +:+ pretty n.

(** The number the numeral of [n] with the sign [sign] denotes. *)
Definition signed (sign : string) (n : N) : float :=
  if String.eqb sign "-" then (- of_Z (Z.of_N n))%float else of_Z (Z.of_N n).

(** The names a number inherits, those of [Number.prototype] and of
    [Object.prototype]. *)
Definition Number_prototype_names : list string :=
  ["toExponential"; "toFixed"; "toPrecision"] ++ Object_prototype_names.

(** The lookup [o[k]] is decided by what [o] holds itself, not by a member
    it inherits: the key is a primitive value and names, on an object, a
    member of its own or no member of [Object.prototype]; on an array or a
    string, an index or [length]; on a boolean or a number, no member of
    their prototypes (a boolean inherits no name that a plain object does
    not).  This is where [get], which knows own data only, answers as the
    program does. *)
Definition own_lookup (h : Host) (o k : val) : Prop :=
  match k with
  | VArr _ | VObj _ => False
  | _ =>
      match o with
      | VObj l =>
          ToString h k ∈ l.*1 ∨ ToString h k ∉ Object_prototype_names
      | VArr _ | VStr _ =>
          is_Some (index_of_key k) ∨ ToString h k = "length"
      | VBool _ => ToString h k ∉ Object_prototype_names
      | VNum _ => ToString h k ∉ Number_prototype_names
      | VUndef | VNull => True
      end
  end.

(** Every lookup of the walk along [ks] is made on a value that is neither
    undefined nor null, and is decided by what that value holds itself. *)
Definition resolvable (h : Host) (data : val) (ks : list val) : Prop :=
  ∀ ks1 k ks2 v,
    ks = (ks1 ++ k :: ks2)%list → walk h data ks1 = Ok v →
    v ≠ VUndef ∧ v ≠ VNull ∧ own_lookup h v k.

(** Every lookup the walk along [ks] makes is decided by what the value
    looked into holds itself. *)
Definition own_walk (h : Host) (data : val) (ks : list val) : Prop :=
  ∀ ks1 k ks2 v,
    ks = (ks1 ++ k :: ks2)%list → walk h data ks1 = Ok v → own_lookup h v k.

(** The lookups an accessor makes on a datum are decided by own members. *)
Definition own_access (h : Host) (datum : val) (a : accessor) : Prop :=
  match a with
  | Path ks => own_walk h datum ks
  | Null => True
  | Key k => own_lookup h datum (of_primitive k)
  end.

(** No object of the value, the value itself or an element of it when it is
    an array, has a member named [toString] of its own. *)
Fixpoint plain (v : val) : bool :=
  match v with
  | VObj l => negb (existsb (λ p, String.eqb (fst p) "toString") l)
  | VArr l => forallb plain l
  | _ => true
  end.

(** * Properties *)

(** ** Running a computation *)

Lemma bind_run {A B : Type} (m : M A) (f : A → M B) (w : world) :
  (m ≫= f) w = match m w with
               | (Ok a, w') => f a w'
               | (Throw e, w') => (Throw e, w')
               end.
Proof. reflexivity. Qed.

Lemma bind_Ok {A B : Type} (m : M A) (f : A → M B) (w w' : world) (b : B) :
  (m ≫= f) w = (Ok b, w') →
  ∃ a w1, m w = (Ok a, w1) ∧ f a w1 = (Ok b, w').
Proof.
  rewrite bind_run. destruct (m w) as [[a|e] w1]; [eauto|discriminate].
Qed.

(** ** [convertTimestamp] *)

(** C9: for every format, [convertTimestamp(null, format)] returns null
    without throwing, and leaves the state as it was except for one more
    entry at the end of [errors]: an ["error"] diagnostic of
    [convertTimestamp] with message ["invalid timestamp"]. *)
Theorem convertTimestamp_null (h : Host) (format : val) (w : world) :
  convertTimestamp h VNull format w
  = (Ok VNull,
     World (objects w) (arrays w)
           (errors w
            ++ [Diag "error" "convertTimestamp" "invalid timestamp"
                     [("timestamp", VNull);
                      ("format", match format with
                                 | VUndef => VStr "C"
                                 | _ => format
                                 end)]])%list
           (draws w)).
Proof.
  unfold convertTimestamp. simpl. reflexivity.
Qed.

Lemma digit_value_decimal (c : ascii) :
  decimal c = true →
  digit_value 10 c = Some (nat_of_ascii c - 48)%nat.
Proof.
  unfold decimal, digit_value. intros Hc.
  rewrite Hc. apply bool_decide_eq_true in Hc.
  rewrite bool_decide_eq_true_2 by lia. reflexivity.
Qed.

Lemma digits_prefix_fraction (ds frac : string) (acc : option Z) :
  forallb decimal (list_ascii_of_string ds) = true →
  digits_prefix 10 acc (ds +:+ String "." frac) = digits_prefix 10 acc ds.
Proof.
  revert acc. induction ds as [|c ds IH]; intros acc Hds.
  - reflexivity.
  - simpl in Hds. apply andb_true_iff in Hds as [Hc Hds].
    simpl. rewrite digit_value_decimal by done. apply IH, Hds.
Qed.

Lemma decimal_neq (c d : ascii) :
  decimal c = true → decimal d = false → Ascii.eqb c d = false.
Proof.
  intros Hc Hd. destruct (Ascii.eqb_spec c d) as [->|]; [congruence|done].
Qed.

(** [parseInt] reads the integer part of a decimal numeral and drops the
    fraction. *)
Lemma parseInt_discards_fraction (c : ascii) (ds frac : string) :
  forallb decimal (list_ascii_of_string (String c ds)) = true →
  parseInt (String c ds +:+ String "." frac) = parseInt (String c ds).
Proof.
  intros Hds. pose proof Hds as Hall.
  simpl in Hds. apply andb_true_iff in Hds as [Hc Hds].
  assert (Hsp : is_space c = false).
  { unfold is_space. apply bool_decide_eq_false. intros Hin.
    apply bool_decide_eq_true in Hc.
    repeat (apply elem_of_cons in Hin as [Hin|Hin]; [lia|]).
    by apply elem_of_nil in Hin. }
  unfold parseInt. simpl skip_spaces. rewrite Hsp.
  unfold strip_sign.
  rewrite !(decimal_neq c) by (done || reflexivity).
  assert (Hpre : ∀ rest, strip_prefix (String c (ds +:+ String "." rest))
                         = (10%nat, String c (ds +:+ String "." rest))).
  { intros rest. destruct ds as [|d ds]; simpl.
    - rewrite andb_false_r. reflexivity.
    - simpl in Hds. apply andb_true_iff in Hds as [Hd _].
      rewrite !(decimal_neq d) by (done || reflexivity).
      rewrite andb_false_r. reflexivity. }
  assert (Hpre' : strip_prefix (String c ds) = (10%nat, String c ds)).
  { destruct ds as [|d ds]; simpl; [reflexivity|].
    simpl in Hds. apply andb_true_iff in Hds as [Hd _].
    rewrite !(decimal_neq d) by (done || reflexivity).
    rewrite andb_false_r. reflexivity. }
  change (String c ds +:+ String "." frac)
    with (String c (ds +:+ String "." frac)).
  rewrite Hpre, Hpre'.
  change (String c (ds +:+ String "." frac))
    with (String c ds +:+ String "." frac).
  rewrite digits_prefix_fraction by exact Hall. reflexivity.
Qed.

Lemma decimal_not_space (c : ascii) : decimal c = true → is_space c = false.
Proof.
  unfold decimal, is_space. intros Hc. apply bool_decide_eq_true in Hc.
  apply bool_decide_eq_false. intros Hin.
  repeat (apply elem_of_cons in Hin as [Hin|Hin]; [lia|]).
  by apply elem_of_nil in Hin.
Qed.

Lemma pretty_N_char_digit (d : N) :
  (d < 10)%N →
  digit_value 10 (pretty_N_char d) = Some (N.to_nat d)
  ∧ decimal (pretty_N_char d) = true.
Proof.
  intros Hd. replace d with (N.of_nat (N.to_nat d)) by lia.
  assert (Hk : (N.to_nat d < 10)%nat) by lia.
  generalize dependent (N.to_nat d). clear. intros k Hk.
  do 10 (destruct k as [|k]; [split; reflexivity|]). lia.
Qed.

Lemma append_assoc' (a b c : string) : (a +:+ b) +:+ c = a +:+ (b +:+ c).
Proof.
  induction a as [|x a IH]; [reflexivity|].
  change (String x ((a +:+ b) +:+ c) = String x (a +:+ (b +:+ c))).
  rewrite IH. reflexivity.
Qed.

Lemma pretty_N_go_app (x : N) :
  ∀ s, pretty_N_go x s = pretty_N_go x "" +:+ s.
Proof.
  induction (N.lt_wf_0 x) as [x _ IH]; intros s.
  destruct (decide (0 < x)%N) as [Hx|Hx].
  - rewrite !(pretty_N_go_step x) by exact Hx.
    assert (Hlt : (x `div` 10 < x)%N) by (apply N.div_lt; [exact Hx|done]).
    rewrite (IH _ Hlt (String _ s)), (IH _ Hlt (String _ "")).
    rewrite append_assoc'. reflexivity.
  - replace x with 0%N by lia. rewrite !pretty_N_go_0. reflexivity.
Qed.

Lemma digits_prefix_pretty (x : N) :
  ∀ acc rest, default 0%Z acc = 0%Z → (0 < x)%N →
    digits_prefix 10 acc (pretty_N_go x "" +:+ rest)
    = digits_prefix 10 (Some (Z.of_N x)) rest.
Proof.
  induction (N.lt_wf_0 x) as [x _ IH]; intros acc rest Hacc Hx.
  rewrite pretty_N_go_step by exact Hx.
  rewrite pretty_N_go_app, append_assoc'.
  change (String (pretty_N_char (x `mod` 10)) "" +:+ rest)
    with (String (pretty_N_char (x `mod` 10)) rest).
  assert (Hm : (x `mod` 10 < 10)%N) by (apply N.mod_lt; done).
  destruct (pretty_N_char_digit _ Hm) as [Hd _].
  destruct (decide (0 < x `div` 10)%N) as [Hq|Hq].
  - rewrite (IH (x `div` 10)%N) by (try apply N.div_lt; done).
    cbn [digits_prefix]. rewrite Hd. cbn [default]. f_equal. f_equal.
    pose proof (N.div_mod x 10 ltac:(done)) as H. unfold id.
    rewrite N_nat_Z. change (Z.of_nat 10) with 10%Z.
    rewrite H at 3. rewrite N2Z.inj_add, N2Z.inj_mul. simpl Z.of_N. ring.
  - assert (Hz : (x `div` 10 = 0)%N)
      by (apply N.le_0_r, N.nlt_ge; exact Hq).
    pose proof (N.div_mod x 10 ltac:(done)) as H. rewrite Hz in H.
    rewrite Hz, pretty_N_go_0.
    change ("" +:+ String (pretty_N_char (x `mod` 10)) rest)
      with (String (pretty_N_char (x `mod` 10)) rest).
    cbn [digits_prefix]. rewrite Hd, Hacc. f_equal. f_equal.
    rewrite N_nat_Z. change (Z.of_nat 10) with 10%Z.
    rewrite H at 2. rewrite N2Z.inj_add, N2Z.inj_mul. simpl Z.of_N. ring.
Qed.

Lemma pretty_N_go_length (x : N) :
  ∀ s, (String.length s ≤ String.length (pretty_N_go x s))%nat.
Proof.
  induction (N.lt_wf_0 x) as [x _ IH]; intros s.
  destruct (decide (0 < x)%N) as [Hx|Hx].
  - rewrite pretty_N_go_step by exact Hx.
    etrans; [|apply IH; apply N.div_lt; [exact Hx|done]]. simpl. lia.
  - replace x with 0%N by lia. rewrite pretty_N_go_0. done.
Qed.

Lemma pretty_N_go_decimal (x : N) :
  ∀ s, forallb decimal (list_ascii_of_string s) = true →
       forallb decimal (list_ascii_of_string (pretty_N_go x s)) = true.
Proof.
  induction (N.lt_wf_0 x) as [x _ IH]; intros s Hs.
  destruct (decide (0 < x)%N) as [Hx|Hx].
  - rewrite pretty_N_go_step by exact Hx.
    apply IH; [apply N.div_lt; [exact Hx|done]|].
    cbn [list_ascii_of_string forallb]. rewrite Hs, andb_true_r.
    apply pretty_N_char_digit, N.mod_lt. done.
  - replace x with 0%N by lia. rewrite pretty_N_go_0. exact Hs.
Qed.

(** The decimal form of a number: a digit followed by digits. *)
Lemma pretty_N_decimal (n : N) :
  ∃ c ds, pretty n = String c ds
          ∧ forallb decimal (list_ascii_of_string (String c ds)) = true.
Proof.
  unfold pretty, pretty_N.
  destruct (decide (n = 0%N)) as [->|Hn]; [exists "0"%char, ""; done|].
  pose proof (pretty_N_go_decimal n "" eq_refl) as Hd.
  assert (Hlen : (1 ≤ String.length (pretty_N_go n ""))%nat).
  { rewrite pretty_N_go_step by lia.
    etrans; [|apply pretty_N_go_length]. simpl. lia. }
  destruct (pretty_N_go n "") as [|c ds]; [simpl in Hlen; lia|].
  exists c, ds. done.
Qed.

(** Leading zeros followed by the decimal form of a number: a digit
    followed by digits. *)
Lemma zeros_pretty_decimal (zeros : string) (n : N) :
  zeros_only zeros →
  ∃ c ds, zeros +:+ pretty n = String c ds
          ∧ forallb decimal (list_ascii_of_string (String c ds)) = true.
Proof.
  intros Hz. destruct (pretty_N_decimal n) as (c & ds & -> & Hds).
  induction zeros as [|z zeros IH]; [exists c, ds; done|].
  unfold zeros_only in Hz. cbn [list_ascii_of_string forallb] in Hz.
  apply andb_true_iff in Hz as [Hz0 Hz].
  destruct (IH Hz) as (c' & ds' & Heq & Hds').
  exists z, (String c' ds'). split.
  - change (String z zeros +:+ String c ds)
      with (String z (zeros +:+ String c ds)). rewrite Heq. reflexivity.
  - cbn [list_ascii_of_string forallb].
    cbn [list_ascii_of_string forallb] in Hds'. rewrite Hds', andb_true_r.
    apply Ascii.eqb_eq in Hz0 as ->. reflexivity.
Qed.

(** Leading zeros leave the value read so far at zero. *)
Lemma digits_prefix_zeros (zeros rest : string) :
  zeros_only zeros →
  ∀ acc, default 0%Z acc = 0%Z →
    ∃ acc', default 0%Z acc' = 0%Z
            ∧ digits_prefix 10 acc (zeros +:+ rest)
              = digits_prefix 10 acc' rest.
Proof.
  induction zeros as [|z zeros IH]; intros Hz acc Hacc; [eauto|].
  unfold zeros_only in Hz. cbn [list_ascii_of_string forallb] in Hz.
  apply andb_true_iff in Hz as [Hz0 Hz]. apply Ascii.eqb_eq in Hz0 as ->.
  change (String "0" zeros +:+ rest) with (String "0" (zeros +:+ rest)).
  cbn [digits_prefix]. change (digit_value 10 "0") with (Some 0%nat).
  cbn iota. rewrite Hacc. apply (IH Hz). reflexivity.
Qed.

Lemma digits_prefix_numeral (zeros : string) (n : N) (tail : string) :
  zeros_only zeros →
  tail = "" ∨ (∃ frac, tail = String "." frac) →
  digits_prefix 10 None (zeros +:+ pretty n +:+ tail) = Some (Z.of_N n).
Proof.
  intros Hz Htail.
  assert (Hend : ∀ acc, digits_prefix 10 acc tail = acc).
  { intros acc. destruct Htail as [->|[frac ->]]; reflexivity. }
  destruct (digits_prefix_zeros zeros (pretty n +:+ tail) Hz None eq_refl)
    as (acc & Hacc & ->).
  unfold pretty, pretty_N.
  destruct (decide (n = 0%N)) as [->|Hn].
  - change ("0" +:+ tail) with (String "0" tail).
    cbn [digits_prefix]. change (digit_value 10 "0") with (Some 0%nat).
    cbn iota. rewrite Hend, Hacc. reflexivity.
  - rewrite (digits_prefix_pretty n acc tail Hacc) by lia. apply Hend.
Qed.

Lemma skip_spaces_app (spaces s : string) :
  white_space spaces → skip_spaces (spaces +:+ s) = skip_spaces s.
Proof.
  unfold white_space.
  induction spaces as [|c spaces IH]; intros Hs; [reflexivity|].
  cbn [list_ascii_of_string forallb] in Hs.
  apply andb_true_iff in Hs as [Hc Hs].
  change (String c spaces +:+ s) with (String c (spaces +:+ s)).
  cbn [skip_spaces]. rewrite Hc. apply IH, Hs.
Qed.

(** A decimal numeral, followed by nothing or by a fraction, does not start
    with [0x]. *)
Lemma strip_prefix_numeral (c : ascii) (ds tail : string) :
  forallb decimal (list_ascii_of_string (String c ds)) = true →
  tail = "" ∨ (∃ frac, tail = String "." frac) →
  strip_prefix (String c (ds +:+ tail)) = (10%nat, String c (ds +:+ tail)).
Proof.
  intros Hds Htail. cbn [list_ascii_of_string forallb] in Hds.
  apply andb_true_iff in Hds as [Hc Hds].
  destruct ds as [|d ds].
  - destruct Htail as [->|[frac ->]]; [reflexivity|].
    change ("" +:+ String "." frac) with (String "." frac).
    cbn [strip_prefix]. rewrite andb_false_r. reflexivity.
  - cbn [list_ascii_of_string forallb] in Hds.
    apply andb_true_iff in Hds as [Hd _].
    change (String d ds +:+ tail) with (String d (ds +:+ tail)).
    cbn [strip_prefix].
    rewrite !(decimal_neq d) by (done || reflexivity).
    rewrite andb_false_r. reflexivity.
Qed.

(** [parseInt] on a decimal numeral with leading white space, a sign and
    leading zeros, followed by nothing or by a fraction: the integer the
    digits denote, with the sign. *)
Lemma parseInt_numeral (spaces sign zeros : string) (n : N)
    (tail : string) :
  white_space spaces →
  sign ∈ [""; "+"; "-"] →
  zeros_only zeros →
  tail = "" ∨ (∃ frac, tail = String "." frac) →
  parseInt (spaces +:+ sign +:+ zeros +:+ pretty n +:+ tail)
  = signed sign n.
Proof.
  intros Hsp Hsign Hz Htail. unfold signed.
  pose proof (digits_prefix_numeral zeros n tail Hz Htail) as Hdig.
  rewrite <- append_assoc' in Hdig. rewrite <- (append_assoc' zeros).
  destruct (zeros_pretty_decimal zeros n Hz) as (c & ds & Heq & Hds).
  rewrite Heq in *.
  change (String c ds +:+ tail) with (String c (ds +:+ tail)) in *.
  pose proof (strip_prefix_numeral c ds tail Hds Htail) as Hpre.
  assert (Hc : decimal c = true).
  { cbn [list_ascii_of_string forallb] in Hds.
    apply andb_true_iff in Hds as [Hc _]. exact Hc. }
  unfold parseInt. rewrite skip_spaces_app by exact Hsp.
  repeat (apply elem_of_cons in Hsign as [->|Hsign]).
  - change ("" +:+ String c (ds +:+ tail)) with (String c (ds +:+ tail)).
    cbn [skip_spaces]. rewrite (decimal_not_space c Hc).
    cbn [strip_sign]. rewrite !(decimal_neq c) by (done || reflexivity).
    rewrite Hpre, Hdig. reflexivity.
  - change ("+" +:+ String c (ds +:+ tail))
      with (String "+" (String c (ds +:+ tail))).
    cbn [skip_spaces]. change (is_space "+") with false. cbn iota.
    cbn [strip_sign]. change (Ascii.eqb "+" "-") with false.
    change (Ascii.eqb "+" "+") with true. cbn iota.
    rewrite Hpre, Hdig. reflexivity.
  - change ("-" +:+ String c (ds +:+ tail))
      with (String "-" (String c (ds +:+ tail))).
    cbn [skip_spaces]. change (is_space "-") with false. cbn iota.
    cbn [strip_sign]. change (Ascii.eqb "-" "-") with true. cbn iota.
    rewrite Hpre, Hdig. reflexivity.
  - by apply elem_of_nil in Hsign.
Qed.

Lemma append_empty_r (s : string) : s +:+ "" = s.
Proof.
  induction s as [|c s IH]; [reflexivity|].
  change (String c (s +:+ "") = String c s). rewrite IH. reflexivity.
Qed.

(** C10: a string timestamp is converted as the number [parseInt] reads
    from it.  [parseInt] skips white space, takes a sign and reads the
    digits up to the decimal point, so a decimal numeral of the integer
    [n], with or without leading zeros, gives [n] with its sign whether a
    fraction follows or not, and ["pythonic"] multiplies that integer by
    1000, where a number is multiplied as it is:
    [convertTimestamp("1.9", "pythonic")] is 1000 while
    [convertTimestamp(1.9, "pythonic")] is 1900.  The numerals are those of
    at most 20 significant digits, which [parseInt] reads exactly. *)
Theorem convertTimestamp_string_truncates (h : Host) (s : string)
    (format : val) (w : world) (c : ascii) (ds frac : string)
    (spaces sign zeros : string) (n : N) (x : float) :
  forallb decimal (list_ascii_of_string (String c ds)) = true →
  white_space spaces →
  sign ∈ [""; "+"; "-"] →
  zeros_only zeros →
  (n < 10 ^ 20)%N →
  convertTimestamp h (VStr s) format w
  = convertTimestamp h (VNum (parseInt s)) format w
  ∧ convertTimestamp h (VStr (String c ds +:+ String "." frac)) format w
    = convertTimestamp h (VStr (String c ds)) format w
  ∧ parseInt (numeral spaces sign zeros n) = signed sign n
  ∧ parseInt (numeral spaces sign zeros n +:+ String "." frac)
    = signed sign n
  ∧ convertTimestamp h
      (VStr (numeral spaces sign zeros n +:+ String "." frac))
      (VStr "pythonic") w
    = (Ok (VNum (signed sign n * 1000)), w)
  ∧ convertTimestamp h (VNum x) (VStr "pythonic") w
    = (Ok (VNum (x * 1000)), w)
  ∧ convertTimestamp h (VStr "1.9") (VStr "pythonic") w = (Ok (VNum 1000), w)
  ∧ convertTimestamp h (VNum 1.9) (VStr "pythonic") w = (Ok (VNum 1900), w).
Proof.
  intros Hds Hsp Hsign Hz _.
  assert (Hint : parseInt (numeral spaces sign zeros n) = signed sign n).
  { unfold numeral.
    rewrite <- (parseInt_numeral spaces sign zeros n "") by auto.
    rewrite !append_empty_r. reflexivity. }
  assert (Hfrac : parseInt (numeral spaces sign zeros n +:+ String "." frac)
                  = signed sign n).
  { unfold numeral. rewrite !append_assoc'.
    apply parseInt_numeral; eauto. }
  split; [reflexivity|]. split.
  { unfold convertTimestamp. simpl strict_eq. cbv iota.
    rewrite parseInt_discards_fraction by exact Hds. reflexivity. }
  split; [exact Hint|]. split; [exact Hfrac|]. split.
  { unfold convertTimestamp. simpl strict_eq. cbv iota.
    rewrite Hfrac. reflexivity. }
  split; [|split; reflexivity].
  unfold convertTimestamp. simpl strict_eq. cbv iota. reflexivity.
Qed.

(** The numeral [" -012.7"] is read as -12 and converted to -12000. *)
Lemma convertTimestamp_string_truncates_witness :
  forallb decimal (list_ascii_of_string "1") = true
  ∧ white_space " "
  ∧ "-" ∈ [""; "+"; "-"]
  ∧ zeros_only "0"
  ∧ (12 < 10 ^ 20)%N
  ∧ numeral " " "-" "0" 12 +:+ ".7" = " -012.7"
  ∧ parseInt " -012.7" = (-12)%float
  ∧ ∀ h w, convertTimestamp h (VStr " -012.7") (VStr "pythonic") w
           = (Ok (VNum (-12000)), w).
Proof.
  assert (Hsign : "-" ∈ [""; "+"; "-"]) by (do 2 right; left).
  do 5 (split; [reflexivity || exact Hsign || done|]).
  split; [reflexivity|]. split.
  - exact (proj1 (proj2 (proj2 (proj2 (convertTimestamp_string_truncates
             fixed_host "" VUndef no_state "1" "" "7" " " "-" "0" 12 0
             eq_refl eq_refl Hsign eq_refl eq_refl))))).
  - intros h w.
    exact (proj1 (proj2 (proj2 (proj2 (proj2
             (convertTimestamp_string_truncates
                h "" VUndef w "1" "" "7" " " "-" "0" 12 0
                eq_refl eq_refl Hsign eq_refl eq_refl)))))).
Defined.

(** ** [toCsv] *)

(** C7: [toCsv(",")] on an event titled ["a,b"] writes the title ["a;b"],
    but only the first separator of a field is replaced: the title
    ["a,b,c"] is written ["a;b,c"], which the separator splits in two. *)
Theorem toCsv_replaces_first_separator_only (h : Host) :
  (toCsv_cells (titled "a,b") "," no_state).1
  = Ok [VStr "a;b"; VStr ""; VStr "00:00:01.000"; VNum 1;
        VStr "00:00:02.500"; VNum 2.5; VNum 1500; VStr ""; VStr ""]
  ∧ (toCsv_cells (titled "a,b,c") "," no_state).1
    = Ok [VStr "a;b,c"; VStr ""; VStr "00:00:01.000"; VNum 1;
          VStr "00:00:02.500"; VNum 2.5; VNum 1500; VStr ""; VStr ""]
  ∧ (toCsv h (titled "a,b,c") "," no_state).1
    = Ok ("a;b,c,,00:00:01.000," +:+ Number_toString h 1
          +:+ ",00:00:02.500," +:+ Number_toString h 2.5
          +:+ "," +:+ Number_toString h 1500 +:+ ",,").
Proof.
  split; [|split]; vm_compute; reflexivity.
Qed.

(** ** Record conversion *)

(** In [convertCsv] a field of the map that is null gives a null start: no
    time is converted and no offset is subtracted. *)
Lemma csv_time_null (h : Host) (timeOffset : float) (format row : val)
    (w : world) :
  csv_time h timeOffset None format row w = (Ok None, w).
Proof. reflexivity. Qed.

Lemma convertCsv_row_null_start (h : Host) (timeOffset : float) (m : CsvMap)
    (line : string) (w w' : world) (c : Chrono) :
  csv_start m = None →
  convertCsv_row h timeOffset m line w = (Ok c, w') →
  start c = None.
Proof.
  intros Hm. unfold convertCsv_row. rewrite Hm. intros Hrun.
  repeat (apply bind_Ok in Hrun as (? & ? & ? & Hrun)).
  match goal with
  | H : csv_time _ _ None _ _ _ = _ |- _ =>
      rewrite csv_time_null in H; injection H as <- <-
  end.
  unfold mret, M_ret in Hrun. injection Hrun as <- _. reflexivity.
Qed.

(** Every event [convertCsv] builds from a map whose start is null has a
    null start. *)
Lemma convertCsv_null_start (h : Host) (timeOffset : float) (m : CsvMap)
    (data : list string) (w w' : world) (cs : list Chrono) :
  csv_start m = None →
  convertCsv h timeOffset m data w = (Ok cs, w') →
  Forall (λ c, start c = None) cs.
Proof.
  intros Hm. unfold convertCsv.
  generalize (drop (if csv_firstRow m then 1 else 0) data). clear data.
  intros data. revert w cs.
  induction data as [|d data IH]; intros w cs Hrun; simpl in Hrun.
  - injection Hrun as <- _. constructor.
  - apply bind_Ok in Hrun as (c & w1 & Hc & Hrun).
    apply bind_Ok in Hrun as (cs' & w2 & Hcs & Hrun).
    injection Hrun as <- <-. constructor.
    + eapply convertCsv_row_null_start; eauto.
    + eapply IH; eauto.
Qed.

(** C5: in the later converter ([Map.convert]) a field without accessor
    resolves to null, [convertTimestamp] turns the null into null, and the
    subtraction makes a number of it: with a time offset of 5000 the event
    starts and ends at -5000, not at null.  A start that is null itself
    makes [Map.convert] throw before any event is built.  ([Map.convertCsv],
    on the same row and the same offset, leaves both null.) *)
Theorem convert_offsets_absent_timestamp (h : Host) :
  (∃ c w,
     convert h 5000 type_only [VStr "a,1"] no_state = (Ok [c], w)
     ∧ start c = Some (-5000)%float ∧ end_ c = Some (-5000)%float)
  ∧ (convert h 5000 null_start [VStr "a,1"] no_state).1 = Throw TypeError
  ∧ (∃ c w,
       convertCsv h 5000 csv_type_only ["a,1"] no_state = (Ok [c], w)
       ∧ start c = None ∧ end_ c = None).
Proof.
  split; [|split].
  - do 2 eexists. split; [vm_compute; reflexivity|]. split; reflexivity.
  - vm_compute. reflexivity.
  - do 2 eexists. split; [vm_compute; reflexivity|]. split; reflexivity.
Qed.

(** ** [FindSuccessivePairs] on an empty side *)

(** C2: with one event matching the start filter and none matching the end
    filter the call throws a [TypeError] (in the method and in the static
    function alike); with no event matching the start filter it returns no
    pair, yet the event matching the end filter is removed: of the two
    events of the collection only the second is left. *)
Theorem FindSuccessivePairs_empty_side (h : Host) :
  (FindSuccessivePairs h (ChronoSet_new 0) by_start by_stop lone_start).1
  = Throw TypeError
  ∧ (FindSuccessivePairs_static h 0 by_start by_stop true lone_start).1
    = Throw TypeError
  ∧ (∃ pairs this w,
       FindSuccessivePairs h (ChronoSet_new 0) by_start by_stop lone_stop
       = (Ok (pairs, this), w)
       ∧ arrays lone_stop !!! 0%nat = [0; 1]%nat
       ∧ arrays w !!! pairs = []
       ∧ arrays w !!! chronos this = [1%nat])
  ∧ (∃ all w,
       FindSuccessivePairs_static h 0 by_start by_stop true lone_stop
       = (Ok all, w)
       ∧ arrays w !!! all = [1%nat]).
Proof.
  split; [vm_compute; reflexivity|].
  split; [vm_compute; reflexivity|].
  split.
  - do 3 eexists. split; [vm_compute; reflexivity|].
    repeat split; reflexivity.
  - do 2 eexists. split; [vm_compute; reflexivity|]. reflexivity.
Qed.

(** ** The pairing loop *)

(** C3: an end that is the last element of the working list is claimed
    without being removed from it.  With two starts followed by one stop,
    both starts are merged with that stop (both end at 60), and the working
    list of ends, the array at reference 2, still holds the stop; a stop
    that precedes the only start is claimed as well (the start at 20 ends
    at 10). *)
Theorem FindSuccessivePairs_reuses_last_end (h : Host) :
  (∃ r w,
     FindSuccessivePairs h (ChronoSet_new 0) by_start by_stop
                         two_starts_one_stop = (Ok r, w)
     ∧ end_ (objects w !!! 0%nat) = Some 60%float
     ∧ end_ (objects w !!! 1%nat) = Some 60%float
     ∧ arrays w !!! 2%nat = [2%nat])
  ∧ (∃ r w,
       FindSuccessivePairs h (ChronoSet_new 0) by_start by_stop
                           stop_before_start = (Ok r, w)
       ∧ start (objects w !!! 1%nat) = Some 20%float
       ∧ end_ (objects w !!! 1%nat) = Some 10%float).
Proof.
  split; do 2 eexists; (split; [vm_compute; reflexivity|]);
    repeat split; reflexivity.
Qed.

(** ** The backup of a [ChronoSet] *)

(** C4: the constructor stores the same array in [chronos] and in
    [chronos_backup], so the removals of [FindSuccessivePairs] empty the
    backup: in the pairing scenario it holds the four events before the
    call and none after it. *)
Theorem FindSuccessivePairs_empties_backup (h : Host) :
  let this := ChronoSet_new 0 in
  arrays two_pairs !!! chronos_backup this = [0; 1; 2; 3]%nat
  ∧ ∃ pairs this' w,
      FindSuccessivePairs h this by_start by_stop two_pairs
      = (Ok (pairs, this'), w)
      ∧ chronos_backup this' = chronos_backup this
      ∧ arrays w !!! chronos_backup this' = [].
Proof.
  split; [reflexivity|].
  do 3 eexists. split; [vm_compute; reflexivity|]. split; reflexivity.
Qed.

(** ** [getNestedValue] *)

Lemma walk_app (h : Host) (data : val) (ks1 ks2 : list val) :
  walk h data (ks1 ++ ks2)
  = match walk h data ks1 with
    | Ok v => walk h v ks2
    | Throw e => Throw e
    end.
Proof.
  revert data. induction ks1 as [|k ks1 IH]; intros data; simpl.
  - reflexivity.
  - destruct (get h data k) as [v|e]; [apply IH|reflexivity].
Qed.

Lemma get_throws (h : Host) (o k : val) (e : exn) :
  get h o k = Throw e → e = TypeError ∧ (o = VUndef ∨ o = VNull).
Proof.
  destruct o; simpl; try discriminate;
    repeat case_match; try discriminate; intros [= <-]; auto.
Qed.

(** The walk stops only where a lookup is made on undefined or null. *)
Lemma walk_throws (h : Host) (data : val) (ks : list val) (e : exn) :
  walk h data ks = Throw e →
  e = TypeError
  ∧ ∃ ks1 k ks2 v,
      ks = (ks1 ++ k :: ks2)%list ∧ walk h data ks1 = Ok v
      ∧ (v = VUndef ∨ v = VNull).
Proof.
  revert data. induction ks as [|k ks IH]; intros data; simpl.
  - discriminate.
  - destruct (get h data k) as [v|e'] eqn:Hget.
    + intros Hw. destruct (IH _ Hw) as (-> & ks1 & k' & ks2 & v' & -> & Hv & Hu).
      split; [reflexivity|].
      exists (k :: ks1), k', ks2, v'. simpl. rewrite Hget. auto.
    + intros [= ->]. apply get_throws in Hget as [-> Hu].
      split; [reflexivity|]. exists [], k, ks, data. auto.
Qed.

(** Where a lookup yields undefined or null and a key is left, resolution
    throws a [TypeError]. *)
Lemma getNestedValue_throws (h : Host) (data : val) (ks1 ks2 : list val)
    (k v : val) :
  walk h data ks1 = Ok v → v = VUndef ∨ v = VNull →
  getNestedValue h data (Keys (ks1 ++ k :: ks2)) = Throw TypeError.
Proof.
  intros Hw Hv. unfold getNestedValue. rewrite walk_app, Hw. simpl.
  destruct Hv as [-> | ->]; reflexivity.
Qed.

(** Induction on values, the elements of an array included. *)
Lemma val_nested_ind (P : val → Prop) :
  P VUndef → P VNull → (∀ b, P (VBool b)) → (∀ x, P (VNum x)) →
  (∀ s, P (VStr s)) → (∀ l, Forall P l → P (VArr l)) → (∀ l, P (VObj l)) →
  ∀ v, P v.
Proof.
  intros HU HN HB HX HS HA HO. fix IH 1. intros v.
  destruct v as [| |b|x|s|l|l];
    [exact HU|exact HN|apply HB|apply HX|apply HS| |apply HO].
  apply HA. induction l as [|y l IHl]; constructor; [apply IH|exact IHl].
Qed.

(** On a value that holds no [toString] member of its own, the method call
    gives the string that [String(v)] gives. *)
Lemma toString_call_plain (h : Host) (v : val) :
  plain v = true → toString_call h v = Ok (ToString h v).
Proof.
  induction v as [| |b|x|s|l IH|l] using val_nested_ind; intros Hp;
    try reflexivity.
  - cbn [toString_call ToString]. unfold join_all.
    assert (Hl : foldr (λ r acc,
                          match r, acc with
                          | Ok s, Ok ss => Ok (s :: ss)
                          | Throw e, _ => Throw e
                          | _, Throw e => Throw e
                          end) (Ok [])
                       ((λ x, match x with
                              | VUndef | VNull => Ok ""
                              | _ => toString_call h x
                              end) <$> l)
                 = Ok ((λ x, match x with
                             | VUndef | VNull => ""
                             | _ => ToString h x
                             end) <$> l)).
    { cbn [plain] in Hp. induction IH as [|y l Hy _ IHl]; [reflexivity|].
      cbn [forallb] in Hp. apply andb_true_iff in Hp as [Hpy Hpl].
      rewrite !fmap_cons. cbn [foldr]. rewrite (IHl Hpl).
      destruct y; try reflexivity; rewrite (Hy Hpy); reflexivity. }
    rewrite Hl. reflexivity.
  - cbn [toString_call plain] in *. apply negb_true_iff in Hp.
    rewrite Hp. reflexivity.
Qed.

(** C6 (amended): for every record and every list of keys, resolution walks
    the record by successive lookups.  Provided none of the values a lookup
    is made on (the record, and what each lookup but the last yields) is
    undefined or null, every lookup is decided by what the value holds
    itself and not by a member it inherits, and the final value holds no
    member named [toString] of its own, the walk reaches a final value, and
    the result is null if that value is falsy (undefined, null, false, 0,
    NaN or the empty string) and its string representation otherwise. *)
Theorem getNestedValue_resolution (h : Host) (data : val) (ks : list val) :
  resolvable h data ks →
  (∀ v, walk h data ks = Ok v → plain v = true) →
  ∃ v, walk h data ks = Ok v
       ∧ getNestedValue h data (Keys ks)
         = Ok (if truthy v then VStr (ToString h v) else VNull).
Proof.
  intros Hdef Hplain. destruct (walk h data ks) as [v|e] eqn:Hw.
  - exists v. split; [reflexivity|]. unfold getNestedValue. rewrite Hw.
    destruct (truthy v); [|reflexivity].
    rewrite (toString_call_plain h v (Hplain v eq_refl)). reflexivity.
  - apply walk_throws in Hw as (_ & ks1 & k & ks2 & v & Hks & Hv & Hu).
    destruct (Hdef ks1 k ks2 v Hks Hv) as (H1 & H2 & _).
    destruct Hu; contradiction.
Qed.

(** A path that resolves: both lookups are made on objects and name
    members of their own, and the final value is a string. *)
Lemma getNestedValue_resolution_witness :
  let data := VObj [("a", VObj [("b", VStr "v")])] in
  (∀ h, walk h data [VStr "a"] = Ok (VObj [("b", VStr "v")]))
  ∧ (∀ h, resolvable h data [VStr "a"; VStr "b"])
  ∧ (∀ h, walk h data [VStr "a"; VStr "b"] = Ok (VStr "v"))
  ∧ (∀ h, ∃ v, walk h data [VStr "a"; VStr "b"] = Ok v
               ∧ getNestedValue h data (Keys [VStr "a"; VStr "b"])
                 = Ok (if truthy v then VStr (ToString h v) else VNull)).
Proof.
  intros data.
  assert (Hres : ∀ h, resolvable h data [VStr "a"; VStr "b"]).
  { intros h ks1 k ks2 v Hks Hw.
    destruct ks1 as [|k1 [|k2 ks1]].
    - injection Hks as <- _. injection Hw as <-.
      split; [discriminate|]. split; [discriminate|].
      left. simpl. left.
    - injection Hks as <- <- _. injection Hw as <-.
      split; [discriminate|]. split; [discriminate|].
      left. simpl. left.
    - apply (f_equal length) in Hks. simpl in Hks.
      rewrite length_app in Hks. simpl in Hks. lia. }
  split; [intros h; reflexivity|]. split; [exact Hres|].
  split; [intros h; reflexivity|]. intros h.
  apply (getNestedValue_resolution h data [VStr "a"; VStr "b"] (Hres h)).
  intros v [= <-]. reflexivity.
Defined.

(** C6 as stated fails: on the record [{}] the path [a.b] finds [a]
    undefined and throws instead of giving null, and on [{a: 0}] the path
    [a] ends on the value 0, met no undefined on the way, and gives null
    rather than a string representation of 0. *)
Lemma getNestedValue_not_total :
  (∀ h, get h (VObj []) (VStr "a") = Ok VUndef)
  ∧ (∀ h, getNestedValue h (VObj []) (Keys [VStr "a"; VStr "b"])
          = Throw TypeError)
  ∧ (∀ h, walk h (VObj [("a", VNum 0)]) [VStr "a"] = Ok (VNum 0))
  ∧ (∀ h, getNestedValue h (VObj [("a", VNum 0)]) (Keys [VStr "a"])
          = Ok VNull).
Proof.
  repeat split; intros h; reflexivity.
Qed.

(** ** [duration] is [end - start] *)

Section Triples.
Context {A : Type}.
Implicit Types (P E : world → Prop) (Q : A → world → Prop).

Lemma triple_ret P E (a : A) : triple P (mret a) (λ _, P) E.
Proof. intros w Hw. exact Hw. Qed.

Lemma triple_throw P (e : exn) Q : triple P (throw e : M A) Q P.
Proof. intros w Hw. exact Hw. Qed.

Lemma triple_lift P (r : result A) : triple P (lift r) (λ _, P) P.
Proof. intros w Hw. unfold lift. destruct r; exact Hw. Qed.

Lemma triple_bind {B : Type} P Q (R : B → world → Prop) E
    (m : M A) (f : A → M B) :
  triple P m Q E → (∀ a, triple (Q a) (f a) R E) → triple P (m ≫= f) R E.
Proof.
  intros Hm Hf w Hw. rewrite bind_run. specialize (Hm w Hw).
  destruct (m w) as [[a|e] w']; [apply Hf, Hm|exact Hm].
Qed.

End Triples.

(** A computation that leaves the objects alone keeps whatever holds of
    them. *)
Lemma triple_frame {A : Type} (P : list Chrono → Prop) (m : M A) :
  (∀ w, objects (m w).2 = objects w) →
  triple (λ w, P (objects w)) m (λ _ w, P (objects w)) (λ w, P (objects w)).
Proof.
  intros Hm w Hw. specialize (Hm w).
  destruct (m w) as [[a|e] w']; simpl in Hm; rewrite Hm; exact Hw.
Qed.

Lemma consistent_inhabitant : consistent inhabitant.
Proof. reflexivity. Qed.

Lemma consistent_lookup_total (w : world) (r : ref) :
  all_consistent w → consistent (objects w !!! r).
Proof.
  intros Hw. destruct (objects w !! r) as [c|] eqn:Hr.
  - rewrite (list_lookup_total_correct _ _ _ Hr).
    exact (Forall_lookup_1 consistent _ _ _ Hw Hr).
  - rewrite list_lookup_total_alt, Hr. apply consistent_inhabitant.
Qed.

(** Writing a field other than [start], [end] and [duration]. *)
Lemma triple_update_obj (r : ref) (f : Chrono → Chrono) :
  (∀ c, consistent c → consistent (f c)) →
  triple all_consistent (update_obj r f) (λ _, all_consistent)
         all_consistent.
Proof.
  intros Hf w Hw. unfold update_obj. simpl.
  apply Forall_insert; [exact Hw|]. apply Hf, consistent_lookup_total, Hw.
Qed.

(** [start.end = ...] leaves the other objects consistent. *)
Lemma triple_set_end (r : ref) (e : option float) :
  triple all_consistent (update_obj r (set_end e))
         (λ _, consistent_but r) all_consistent.
Proof.
  intros w Hw i c Hi Hne. simpl in Hi.
  rewrite list_lookup_insert_ne in Hi by done.
  exact (Forall_lookup_1 consistent _ _ _ Hw Hi).
Qed.

(** [start.duration = start.end - start.start] restores it at [start]. *)
Lemma triple_set_duration (r : ref) :
  triple (consistent_but r)
         (s ← read_obj r;
          update_obj r (set_duration (to_num (end_ s) - to_num (start s))))
         (λ _, all_consistent) all_consistent.
Proof.
  intros w Hw. simpl. unfold all_consistent. simpl.
  apply Forall_lookup_2. intros i c Hi.
  destruct (decide (r = i)) as [->|Hne].
  - apply list_lookup_insert_Some in Hi as [(_ & <- & _)|[? _]]; [|done].
    reflexivity.
  - rewrite list_lookup_insert_ne in Hi by done. eapply Hw; eauto.
Qed.

Lemma triple_of_end {A : Type} (end' : option ref) (f : Chrono → A) :
  triple all_consistent (of_end end' f) (λ _, all_consistent) all_consistent.
Proof.
  destruct end' as [e|]; simpl.
  - apply (triple_frame (Forall consistent)). intros w. reflexivity.
  - apply triple_throw.
Qed.

Lemma triple_prefer (end' : option ref) (r : ref) (f : Chrono → val)
    (set : val → Chrono → Chrono) :
  (∀ v c, consistent c → consistent (set v c)) →
  triple all_consistent
         (s ← read_obj r;
          v ← (if truthy (f s) then mret (f s) else of_end end' f);
          update_obj r (set v))
         (λ _, all_consistent) all_consistent.
Proof.
  intros Hset.
  eapply triple_bind;
    [apply (triple_frame (Forall consistent)); intros; reflexivity|].
  intros s. eapply triple_bind.
  - destruct (truthy (f s)); [apply triple_ret|apply triple_of_end].
  - intros v. apply triple_update_obj, Hset.
Qed.

Lemma triple_merge (h : Host) (r : ref) (end' : option ref) :
  triple all_consistent (merge h r end') (λ _, all_consistent)
         all_consistent.
Proof.
  unfold merge.
  eapply triple_bind; [apply triple_prefer; intros; assumption|intros ?].
  eapply triple_bind; [apply triple_prefer; intros; assumption|intros ?].
  eapply triple_bind; [apply triple_prefer; intros; assumption|intros ?].
  eapply triple_bind; [apply triple_prefer; intros; assumption|intros ?].
  eapply triple_bind; [apply triple_of_end|intros e].
  eapply triple_bind; [apply triple_set_end|intros ?].
  change (triple (consistent_but r)
            ((s ← read_obj r;
              update_obj r
                (set_duration (to_num (end_ s) - to_num (start s))))
             ≫= λ _, s ← read_obj r;
                      t ← of_end end' tags;
                      update_obj r (set_tags (add h (tags s) t));;
                      (s ← read_obj r;
                       v ← (if truthy (myPrimaryTagKey s)
                            then mret (myPrimaryTagKey s)
                            else of_end end' myPrimaryTagKey);
                       update_obj r (set_myPrimaryTagKey v)))
            (λ _, all_consistent) all_consistent).
  eapply triple_bind; [apply triple_set_duration|intros ?].
  eapply triple_bind;
    [apply (triple_frame (Forall consistent)); intros; reflexivity|].
  intros s. eapply triple_bind; [apply triple_of_end|intros t].
  eapply triple_bind;
    [apply triple_update_obj; intros; assumption|intros ?].
  apply triple_prefer. intros; assumption.
Qed.

Ltac frame := apply (triple_frame (Forall consistent)); intros; reflexivity.

Lemma triple_form_pairs (h : Host) (fuel k : nat)
    (this_chronos pairs ends : aref) :
  triple all_consistent (form_pairs h fuel k this_chronos pairs ends)
         (λ _, all_consistent) all_consistent.
Proof.
  revert k. induction fuel as [|fuel IH]; intros k; simpl.
  - apply triple_ret.
  - eapply triple_bind; [frame|intros ps].
    destruct (ps !! k) as [start_|]; [|apply triple_ret].
    eapply triple_bind; [frame|intros cs].
    eapply triple_bind; [frame|intros es].
    destruct (scan _ _ _ _ _) as [end' cut].
    eapply triple_bind.
    { destruct cut; [frame|apply triple_ret]. }
    intros ?. eapply triple_bind; [apply triple_merge|intros ?].
    apply IH.
Qed.

Lemma triple_select (a : aref) (criteria : list (string * val)) :
  triple all_consistent (select a criteria) (λ _, all_consistent)
         all_consistent.
Proof.
  destruct criteria as [|c criteria]; simpl; [apply triple_ret|].
  eapply triple_bind; [frame|intros l].
  eapply triple_bind; [frame|intros w]. frame.
Qed.

Lemma triple_pop_all (chronos : aref) (indeciesToPop : list Z) :
  triple all_consistent (pop_all chronos indeciesToPop)
         (λ _, all_consistent) all_consistent.
Proof.
  induction indeciesToPop as [|i rest IH]; simpl; [apply triple_ret|].
  eapply triple_bind; [frame|intros cs].
  eapply triple_bind; [frame|intros ?]. apply IH.
Qed.

Lemma triple_consolidate (h : Host) (chronos : aref)
    (startKey endKey : filter_obj) :
  triple all_consistent (consolidate h chronos startKey endKey)
         (λ _, all_consistent) all_consistent.
Proof.
  unfold consolidate.
  eapply triple_bind; [apply triple_select|intros starts].
  eapply triple_bind; [frame|intros ss].
  eapply triple_bind; [frame|intros cs].
  eapply triple_bind; [apply triple_select|intros ends].
  eapply triple_bind; [frame|intros es].
  eapply triple_bind; [frame|intros cs'].
  eapply triple_bind; [frame|intros ps].
  eapply triple_bind; [apply triple_form_pairs|intros ?].
  eapply triple_bind; [apply triple_pop_all|intros ?].
  apply triple_ret.
Qed.

Lemma triple_FindSuccessivePairs (h : Host) (this : ChronoSet)
    (startKey endKey : filter_obj) :
  triple all_consistent (FindSuccessivePairs h this startKey endKey)
         (λ _, all_consistent) all_consistent.
Proof.
  unfold FindSuccessivePairs.
  eapply triple_bind; [apply triple_consolidate|intros pairs].
  eapply triple_bind; [frame|intros cs].
  eapply triple_bind; [frame|intros ps].
  eapply triple_bind; [frame|intros all]. apply triple_ret.
Qed.

Lemma triple_FindSuccessivePairs_static (h : Host) (chronos : aref)
    (startKey endKey : filter_obj) (returnAll : bool) :
  triple all_consistent
         (FindSuccessivePairs_static h chronos startKey endKey returnAll)
         (λ _, all_consistent) all_consistent.
Proof.
  unfold FindSuccessivePairs_static.
  eapply triple_bind; [apply triple_consolidate|intros pairs].
  destruct returnAll; [|apply triple_ret].
  eapply triple_bind; [frame|intros cs].
  eapply triple_bind; [frame|intros ps]. frame.
Qed.

Lemma triple_final {A : Type} (P : world → Prop) (m : M A) (w : world) :
  triple P m (λ _, P) P → P w → P (m w).2.
Proof.
  intros Hm Hw. specialize (Hm w Hw). destruct (m w) as [[a|e] w']; exact Hm.
Qed.

Lemma consistent_kept (c : Chrono) : consistent c → duration_kept c.
Proof.
  intros Hc. split; [exact Hc|]. unfold duration_eq. rewrite Hc.
  unfold PrimFloat.is_nan. rewrite negb_involutive. reflexivity.
Qed.

(** C8 (amended): the constructor returns an event whose [end] is the given
    end, or the start when the given end is null or zero, and whose
    [duration] is the number that [end - start] evaluates to; and when
    [duration] is that number in every event before [FindSuccessivePairs]
    runs (the method or the static function), it is so in every event
    afterwards, whether the call returns or throws: each merge writes
    [end] and then recomputes [duration] from it.  The comparison
    [duration == end - start] therefore holds exactly when [end - start]
    is not NaN; where it is NaN, [duration] is NaN as well and the
    comparison is false.  Null counts as 0 in the subtraction. *)
Theorem duration_is_end_minus_start (h : Host)
    (ty k ti de : val) (s e : option float) (ta : val) (w0 : world)
    (this : ChronoSet) (startKey endKey : filter_obj) (returnAll : bool)
    (w : world) :
  Forall consistent (objects w) →
  (∃ c w0',
     Chrono_new ty k ti de s e ta w0 = (Ok c, w0')
     ∧ start c = s
     ∧ end_ c = (if strict_eq (num_val e) VNull
                    || strict_eq (num_val e) (VNum 0)
                 then s else e)
     ∧ duration_kept c)
  ∧ Forall duration_kept
      (objects (FindSuccessivePairs h this startKey endKey w).2)
  ∧ Forall duration_kept
      (objects (FindSuccessivePairs_static h (chronos this) startKey endKey
                                           returnAll w).2).
Proof.
  intros Hw. split; [|split].
  - unfold Chrono_new. rewrite bind_run.
    destruct (falsy_num s); simpl; do 2 eexists;
      (split; [reflexivity|]); (split; [reflexivity|]);
      (split; [reflexivity|]); apply consistent_kept; reflexivity.
  - eapply Forall_impl; [|apply consistent_kept].
    exact (triple_final all_consistent _ w
             (triple_FindSuccessivePairs h this startKey endKey) Hw).
  - eapply Forall_impl; [|apply consistent_kept].
    exact (triple_final all_consistent _ w
             (triple_FindSuccessivePairs_static h (chronos this) startKey
                                                endKey returnAll) Hw).
Qed.

(** The pairing scenario: [duration] is [end - start] in every event before
    the call, and in every event after it, the two merged ones with the
    durations 40 and 40, for which the comparison holds. *)
Lemma duration_is_end_minus_start_witness :
  Forall consistent (objects two_pairs)
  ∧ ∀ h, let w := (FindSuccessivePairs h (ChronoSet_new 0) by_start by_stop
                                       two_pairs).2 in
         Forall duration_kept (objects w)
         ∧ duration (objects w !!! 0%nat) = 40%float
         ∧ duration (objects w !!! 2%nat) = 40%float
         ∧ duration_eq (objects w !!! 0%nat) = true.
Proof.
  assert (H : Forall consistent (objects two_pairs))
    by (repeat constructor).
  split; [exact H|]. intros h w. split; [|repeat split; reflexivity].
  exact (proj1 (proj2 (duration_is_end_minus_start h VNull VNull VNull VNull
                         None None VNull no_state (ChronoSet_new 0) by_start
                         by_stop false two_pairs H))).
Defined.

(** C8 as stated fails where [end - start] is NaN.  The constructor called
    with the start NaN, which is what [convertCsv] passes for a start cell
    that holds no number (here the empty second cell of the line ["a,"]),
    builds an event whose [duration] and whose [end - start] are both NaN:
    [duration == end - start] is false.  So is it for an event from
    infinity to infinity. *)
Lemma duration_not_equal_on_NaN :
  (∃ c w, Chrono_new VNull VNull VNull VNull (Some nan) None VNull no_state
          = (Ok c, w)
          ∧ duration_eq c = false)
  ∧ (∀ h, ∃ c w,
       convertCsv_row h 0
         {| csv_type := Some (VNum 0); csv_key := None; csv_title := None;
            csv_description := None; csv_start := Some (VNum 1);
            csv_end := None; csv_tags := None; csv_firstRow := false;
            csv_timestampFormat := VStr "pythonic"; csv_sep := "," |}
         "a," no_state = (Ok c, w)
       ∧ start c = Some nan
       ∧ duration_eq c = false)
  ∧ (∃ c w, Chrono_new VNull VNull VNull VNull (Some infinity)
                       (Some infinity) VNull no_state = (Ok c, w)
            ∧ duration_eq c = false).
Proof.
  split; [|split].
  - do 2 eexists. split; reflexivity.
  - intros h. do 2 eexists. split; [reflexivity|]. split; reflexivity.
  - do 2 eexists. split; reflexivity.
Qed.

(** ** The fuel of the pairing loop *)

(** What does not depend on the objects is kept by a merge, which writes
    objects only. *)
Section MergeFrame.
Context (I : world → Prop).
Hypothesis I_objects :
  ∀ w objs, I w → I (World objs (arrays w) (errors w) (draws w)).

Lemma triple_same {A : Type} (m : M A) :
  (∀ w, (m w).2 = w) → triple I m (λ _, I) I.
Proof.
  intros Hm w Hw. specialize (Hm w).
  destruct (m w) as [[a|e] w']; simpl in Hm; subst w'; exact Hw.
Qed.

Lemma triple_of_end_frame {A : Type} (end' : option ref) (f : Chrono → A) :
  triple I (of_end end' f) (λ _, I) I.
Proof.
  apply triple_same. intros w. destruct end'; reflexivity.
Qed.

Lemma triple_update_frame (r : ref) (f : Chrono → Chrono) :
  triple I (update_obj r f) (λ _, I) I.
Proof. intros w Hw. apply I_objects, Hw. Qed.

Lemma triple_prefer_frame (end' : option ref) (r : ref) (f : Chrono → val)
    (set : val → Chrono → Chrono) :
  triple I
         (s ← read_obj r;
          v ← (if truthy (f s) then mret (f s) else of_end end' f);
          update_obj r (set v))
         (λ _, I) I.
Proof.
  eapply triple_bind; [apply triple_same; reflexivity|intros s].
  eapply triple_bind; [|intros v; apply triple_update_frame].
  destruct (truthy (f s)); [apply triple_ret|apply triple_of_end_frame].
Qed.

Lemma triple_merge_frame (h : Host) (r : ref) (end' : option ref) :
  triple I (merge h r end') (λ _, I) I.
Proof.
  unfold merge.
  repeat (eapply triple_bind; [apply triple_prefer_frame|intros ?]).
  eapply triple_bind; [apply triple_of_end_frame|intros e].
  eapply triple_bind; [apply triple_update_frame|intros ?].
  eapply triple_bind; [apply triple_same; reflexivity|intros s].
  eapply triple_bind; [apply triple_update_frame|intros ?].
  eapply triple_bind; [apply triple_same; reflexivity|intros s'].
  eapply triple_bind; [apply triple_of_end_frame|intros t].
  eapply triple_bind; [apply triple_update_frame|intros ?].
  apply triple_prefer_frame.
Qed.

End MergeFrame.

Lemma merge_arrays (h : Host) (r : ref) (end' : option ref) (w : world) :
  arrays (merge h r end' w).2 = arrays w.
Proof.
  pose proof (triple_merge_frame (λ w', arrays w' = arrays w)
                (λ _ _ H, H) h r end' w eq_refl) as H.
  destruct (merge h r end' w) as [[?|?] w']; exact H.
Qed.

Lemma length_delete_le {A : Type} (l : list A) (i : nat) :
  (length (delete i l) ≤ length l)%nat.
Proof.
  revert i. induction l as [|x l IH]; intros [|i]; simpl; try lia.
  specialize (IH i). lia.
Qed.

(** Splicing an end out never makes an array longer. *)
Lemma write_delete_length (ends pairs : aref) (i : nat) (w : world) :
  (length (arrays (write_arr ends (delete i (arrays w !!! ends)) w).2
           !!! pairs)
   ≤ length (arrays w !!! pairs))%nat.
Proof.
  simpl. rewrite list_lookup_total_insert. case_decide as Hd; [|done].
  destruct Hd as [-> _]. apply length_delete_le.
Qed.

(** The loop over [pairs] never stops for want of fuel: once the fuel
    covers what is left of the array, more fuel changes nothing. *)
Lemma form_pairs_fuel (h : Host) (fuel k : nat)
    (this_chronos pairs ends : aref) (w : world) :
  (length (arrays w !!! pairs) ≤ k + fuel)%nat →
  form_pairs h (S fuel) k this_chronos pairs ends w
  = form_pairs h fuel k this_chronos pairs ends w.
Proof.
  revert k w. induction fuel as [|fuel IH]; intros k w Hlen.
  - simpl. rewrite bind_run. simpl.
    rewrite lookup_ge_None_2 by lia. reflexivity.
  - change (form_pairs h (S (S fuel)) k this_chronos pairs ends w)
      with ((ps ← read_arr pairs;
             match ps !! k with
             | None => mret tt
             | Some start_ =>
                 cs ← read_arr this_chronos;
                 es ← read_arr ends;
                 let index := indexOf cs (Some start_) in
                 let '(end', cut) := scan cs index 0 None es in
                 match cut with
                 | Some i => write_arr ends (delete i es)
                 | None => mret tt
                 end;;
                 merge h start_ end';;
                 form_pairs h (S fuel) (S k) this_chronos pairs ends
             end) w).
    change (form_pairs h (S fuel) k this_chronos pairs ends w)
      with ((ps ← read_arr pairs;
             match ps !! k with
             | None => mret tt
             | Some start_ =>
                 cs ← read_arr this_chronos;
                 es ← read_arr ends;
                 let index := indexOf cs (Some start_) in
                 let '(end', cut) := scan cs index 0 None es in
                 match cut with
                 | Some i => write_arr ends (delete i es)
                 | None => mret tt
                 end;;
                 merge h start_ end';;
                 form_pairs h fuel (S k) this_chronos pairs ends
             end) w).
    rewrite !bind_run. simpl.
    destruct ((arrays w !!! pairs) !! k) as [start_|]; [|reflexivity].
    rewrite !bind_run. simpl. rewrite !bind_run. simpl.
    destruct (scan _ _ _ _ _) as [end' cut].
    rewrite !bind_run.
    assert (Hcut : ∃ w1,
               (match cut with
                | Some i => write_arr ends (delete i (arrays w !!! ends))
                | None => mret tt
                end) w = (Ok tt, w1)
               ∧ (length (arrays w1 !!! pairs)
                  ≤ length (arrays w !!! pairs))%nat).
    { destruct cut as [i|].
      - eexists. split; [reflexivity|]. apply write_delete_length.
      - exists w. split; [reflexivity|lia]. }
    destruct Hcut as (w1 & -> & Hw1).
    rewrite !bind_run.
    pose proof (merge_arrays h start_ end' w1) as Hm.
    destruct (merge h start_ end' w1) as [[[]|x] w2]; [|reflexivity].
    simpl in Hm. apply IH. rewrite Hm. lia.
Qed.

(** In particular the fuel [consolidate] gives, the length of [pairs] at
    entry, is as good as any larger amount. *)
Lemma form_pairs_enough (h : Host) (extra : nat)
    (this_chronos pairs ends : aref) (w : world) :
  form_pairs h (extra + length (arrays w !!! pairs)) 0 this_chronos pairs
             ends w
  = form_pairs h (length (arrays w !!! pairs)) 0 this_chronos pairs ends w.
Proof.
  induction extra as [|extra IH]; [reflexivity|].
  change (S extra + length (arrays w !!! pairs))%nat
    with (S (extra + length (arrays w !!! pairs)))%nat.
  rewrite form_pairs_fuel by lia. exact IH.
Qed.

(** ** [Jsonify] *)














(** ** What the scan claims *)

(** With the candidate [e] at hand and [rest] still to visit, the scan
    claims the first element, among all but the last of [e :: rest], that
    comes after the start, and cuts it out; when there is none it claims
    the last element, wherever it is, and cuts nothing. *)
Lemma scan_from (cs : list ref) (index : Z) (rest : list ref) :
  ∀ (e : ref) (i : nat),
    scan cs index (S i) (Some e) rest
    = match list_find (λ x, (index < indexOf cs (Some x))%Z)
                      (take (length rest) (e :: rest)) with
      | Some (j, x) => (Some x, Some (i + j)%nat)
      | None => (last (e :: rest), None)
      end.
Proof.
  induction rest as [|x rest IH]; intros e i.
  - reflexivity.
  - change (take (length (x :: rest)) (e :: x :: rest))
      with (e :: take (length rest) (x :: rest)).
    change (scan cs index (S i) (Some e) (x :: rest))
      with (if (indexOf cs (Some e) <=? index)%Z
            then scan cs index (S (S i)) (Some x) rest
            else (Some e, Some (S i - 1)%nat)).
    cbn [list_find].
    destruct (Z.leb_spec (indexOf cs (Some e)) index) as [Hle|Hgt].
    + rewrite decide_False by lia. rewrite IH.
      destruct (list_find _ (take (length rest) (x :: rest)))
        as [[j y]|]; simpl; [|reflexivity].
      do 2 f_equal. lia.
    + rewrite decide_True by lia. do 2 f_equal. lia.
Qed.

(** X13: what the scan for the end of a start claims, for every list of
    ends [e :: rest] and every position [index] of the start in the
    collection: the first end, among all but the last, whose position in
    the collection is after [index], and that end is cut out of the list;
    when there is none, the last end of the list, whether it comes after
    the start or not, and nothing is cut. *)
Lemma scan_spec (cs : list ref) (index : Z) (e : ref) (rest : list ref) :
  scan cs index 0 None (e :: rest)
  = match list_find (λ x, (index < indexOf cs (Some x))%Z)
                    (take (length rest) (e :: rest)) with
    | Some (j, x) => (Some x, Some j)
    | None => (last (e :: rest), None)
    end.
Proof.
  change (scan cs index 0 None (e :: rest))
    with (scan cs index 1 (Some e) rest).
  rewrite scan_from. reflexivity.
Qed.

(** Without an end the merge throws: [start.end = end.start] reads a member
    of undefined, if an earlier fallback has not done so already. *)
Lemma merge_without_end (h : Host) (r : ref) (w : world) :
  (merge h r None w).1 = Throw TypeError.
Proof.
  assert (Hp : ∀ (f : Chrono → val) (set : val → Chrono → Chrono)
                 (rest : M unit) (w : world),
            (∀ w', (rest w').1 = Throw TypeError) →
            (((s ← read_obj r;
               v ← (if truthy (f s) then mret (f s) else of_end None f);
               update_obj r (set v));; rest) w).1 = Throw TypeError).
  { intros f set rest w0 Hrest. unfold of_end.
    rewrite !bind_run. simpl.
    destruct (truthy (f (objects w0 !!! r))); rewrite !bind_run; simpl.
    - apply Hrest.
    - reflexivity. }
  unfold merge.
  apply Hp; intros w1. apply Hp; intros w2.
  apply Hp; intros w3. apply Hp; intros w4.
  reflexivity.
Qed.

(** ** A start without any end *)

Lemma bind_throws {A B : Type} (m : M A) (f : A → M B) (w : world)
    (e : exn) :
  (m w).1 = Throw e → ((m ≫= f) w).1 = Throw e.
Proof.
  rewrite bind_run. destruct (m w) as [[a|e'] w']; simpl; intros H;
    [discriminate|congruence].
Qed.

Lemma matching_nil (objs : list Chrono) (criteria : list (string * val)) :
  matching objs criteria [] = [].
Proof.
  unfold matching. induction criteria as [|[k v] criteria IH]; simpl.
  - reflexivity.
  - rewrite filter_nil. exact IH.
Qed.

(** [select] returns an array holding the matching events, and leaves the
    objects and the arrays that existed as they were. *)
Lemma select_spec (a : aref) (criteria : list (string * val)) (w : world) :
  ∃ a' w',
    select a criteria w = (Ok a', w')
    ∧ objects w' = objects w
    ∧ arrays w' !!! a' = matching (objects w) criteria (arrays w !!! a)
    ∧ (∀ b, (b < length (arrays w))%nat → arrays w' !!! b = arrays w !!! b)
    ∧ (length (arrays w) ≤ length (arrays w'))%nat
    ∧ ((a < length (arrays w))%nat → (a' < length (arrays w'))%nat).
Proof.
  destruct criteria as [|c criteria].
  - exists a, w. repeat split; auto.
  - eexists _, _. split; [reflexivity|]. simpl.
    split; [reflexivity|]. split; [|split; [|split]].
    + apply list_lookup_total_middle. reflexivity.
    + intros b Hb. apply lookup_total_app_l. exact Hb.
    + rewrite length_app. lia.
    + intros _. rewrite length_app. simpl. lia.
Qed.

(** When some event matches the start filter and none matches the end
    filter, the call throws a [TypeError], whatever the events are. *)
Lemma consolidate_without_end (h : Host) (chronos : aref)
    (startKey endKey : filter_obj) (w : world) :
  (chronos < length (arrays w))%nat →
  matching (objects w) startKey (arrays w !!! chronos) ≠ [] →
  matching (objects w) (end_criteria startKey endKey) (arrays w !!! chronos)
  = [] →
  (consolidate h chronos startKey endKey w).1 = Throw TypeError.
Proof.
  intros Hc Hss Hes.
  destruct (select_spec chronos startKey w)
    as (starts & w1 & Hsel1 & Hobj1 & Hstarts & Hframe1 & Hlen1 & Hv1).
  destruct (select_spec chronos (end_criteria startKey endKey) w1)
    as (ends & w2 & Hsel2 & Hobj2 & Hends & Hframe2 & Hlen2 & Hv2).
  assert (Hes2 : arrays w2 !!! ends = []).
  { rewrite Hends, Hobj1, Hframe1 by exact Hc. exact Hes. }
  assert (Hps : arrays w2 !!! starts
                = matching (objects w) startKey (arrays w !!! chronos)).
  { rewrite Hframe2 by (apply Hv1, Hc). exact Hstarts. }
  unfold consolidate.
  rewrite bind_run, Hsel1. rewrite bind_run. simpl. rewrite bind_run. simpl.
  rewrite bind_run, Hsel2. rewrite bind_run. simpl. rewrite bind_run. simpl.
  rewrite bind_run. simpl. rewrite Hps.
  destruct (matching (objects w) startKey (arrays w !!! chronos))
    as [|s0 ss] eqn:Hm; [done|].
  apply bind_throws.
  change (form_pairs h (length (s0 :: ss)) 0 chronos starts ends w2)
    with ((ps ← read_arr starts;
           match ps !! 0%nat with
           | None => mret tt
           | Some start_ =>
               cs ← read_arr chronos;
               es ← read_arr ends;
               let index := indexOf cs (Some start_) in
               let '(end', cut) := scan cs index 0 None es in
               match cut with
               | Some i => write_arr ends (delete i es)
               | None => mret tt
               end;;
               merge h start_ end';;
               form_pairs h (length ss) 1 chronos starts ends
           end) w2).
  rewrite bind_run. simpl. rewrite Hps. simpl.
  rewrite bind_run. simpl. rewrite bind_run. simpl. rewrite Hes2. simpl.
  rewrite bind_run. simpl. apply bind_throws, merge_without_end.
Qed.

(** X14: whatever the events are, when at least one event of the
    collection matches the start filter and none matches the end filter,
    [FindSuccessivePairs] throws a [TypeError]: the first start is merged
    with an end that is undefined. *)
Lemma FindSuccessivePairs_without_end (h : Host) (this : ChronoSet)
    (startKey endKey : filter_obj) (w : world) :
  (chronos this < length (arrays w))%nat →
  matching (objects w) startKey (arrays w !!! chronos this) ≠ [] →
  matching (objects w) (end_criteria startKey endKey)
           (arrays w !!! chronos this) = [] →
  (FindSuccessivePairs h this startKey endKey w).1 = Throw TypeError.
Proof.
  intros Hc Hss Hes. unfold FindSuccessivePairs.
  apply bind_throws, consolidate_without_end; assumption.
Qed.

(** A collection of notes and one start, with no stop. *)
Lemma FindSuccessivePairs_without_end_witness :
  let w := collection [event "note" "A" 5; event "start" "A" 10;
                       event "note" "B" 15] in
  (chronos (ChronoSet_new 0) < length (arrays w))%nat
  ∧ matching (objects w) by_start (arrays w !!! 0%nat) = [1%nat]
  ∧ matching (objects w) (end_criteria by_start by_stop) (arrays w !!! 0%nat)
    = []
  ∧ ∀ h, (FindSuccessivePairs h (ChronoSet_new 0) by_start by_stop w).1
         = Throw TypeError.
Proof.
  intros w. split; [simpl; lia|]. split; [reflexivity|].
  split; [reflexivity|]. intros h.
  apply (FindSuccessivePairs_without_end h (ChronoSet_new 0) by_start
           by_stop w); [simpl; lia|discriminate|reflexivity].
Defined.

(** In [Map.convert] a field with an empty list of accessors gives a start
    that is the negated offset. *)
Lemma convert_row_absent_start (h : Host) (timeOffset : float) (m : Map)
    (datum : val) (w w' : world) (c : Chrono) :
  map_start m = MAccessors [] →
  convert_row h timeOffset m datum w = (Ok c, w') →
  start c = Some (0 - timeOffset)%float.
Proof.
  intros Hm. unfold convert_row. rewrite Hm. intros Hrun.
  repeat (apply bind_Ok in Hrun as (? & ? & ? & Hrun)).
  match goal with
  | H : lift (property h (MAccessors []) _) _ = _ |- _ =>
      injection H as <- <-
  end.
  match goal with
  | H : convertTimestamp h VNull _ _ = _ |- _ =>
      unfold convertTimestamp in H; simpl in H; injection H as <- <-
  end.
  unfold mret, M_ret in Hrun. injection Hrun as <- _. reflexivity.
Qed.

(** * Further properties *)

(** ** Computations that only log *)

Lemma logged_refl (w : world) : logged [] w w.
Proof. unfold logged. rewrite app_nil_r. destruct w; reflexivity. Qed.

Lemma logged_trans (ds1 ds2 : list diag) (w w1 w2 : world) :
  logged ds1 w w1 → logged ds2 w1 w2 → logged (ds1 ++ ds2) w w2.
Proof.
  unfold logged. intros -> ->. simpl. rewrite app_assoc. reflexivity.
Qed.

Lemma returns_ret {A : Type} (a : A) (Q : A → Prop) :
  Q a → returns (mret a) Q.
Proof. intros Ha w. exists a, [], w. split; [reflexivity|]. split; [apply logged_refl|exact Ha]. Qed.

Lemma returns_bind {A B : Type} (m : M A) (f : A → M B) (Q : A → Prop)
    (R : B → Prop) :
  returns m Q → (∀ a, Q a → returns (f a) R) → returns (m ≫= f) R.
Proof.
  intros Hm Hf w. destruct (Hm w) as (a & ds1 & w1 & Hrun & Hlog & Ha).
  destruct (Hf a Ha w1) as (b & ds2 & w2 & Hrun2 & Hlog2 & Hb).
  exists b, (ds1 ++ ds2)%list, w2. rewrite bind_run, Hrun.
  split; [exact Hrun2|]. split; [eapply logged_trans; eauto|exact Hb].
Qed.

Lemma returns_weaken {A : Type} (m : M A) (Q R : A → Prop) :
  returns m Q → (∀ a, Q a → R a) → returns m R.
Proof.
  intros Hm HQR w. destruct (Hm w) as (a & ds & w' & Hrun & Hlog & Ha).
  exists a, ds, w'. auto.
Qed.


Lemma returns_push_error (d : diag) : returns (push_error d) (λ _, True).
Proof.
  intros w. exists tt, [d]. eexists. split; [reflexivity|]. split; [reflexivity|done].
Qed.

Lemma convertTimestamp_returns (h : Host) (timestamp format : val) :
  returns (convertTimestamp h timestamp format) (λ _, True).
Proof.
  unfold convertTimestamp. destruct (strict_eq timestamp VNull).
  - eapply returns_bind; [apply returns_push_error|intros _ _].
    apply returns_ret. done.
  - repeat case_match; apply returns_ret; done.
Qed.

Lemma Chrono_new_returns (ty k ti de : val) (s e : option float) (ta : val) :
  returns (Chrono_new ty k ti de s e ta) (λ c, start c = s).
Proof.
  unfold Chrono_new. eapply returns_bind.
  - destruct (falsy_num s); [apply returns_push_error|apply returns_ret; done].
  - intros _ _. apply returns_ret. reflexivity.
Qed.

(** Reading a cell of an array never throws. *)
Lemma get_array (h : Host) (l : list val) (k : val) :
  ∃ v, get h (VArr l) k = Ok v.
Proof. unfold get. repeat case_match; eauto. Qed.

Lemma convert_rows_returns {A : Type} (row : A → M Chrono)
    (Q : Chrono → Prop) (data : list A) :
  (∀ d, d ∈ data → returns (row d) Q) →
  returns (convert_rows row data)
          (λ cs, length cs = length data ∧ Forall Q cs).
Proof.
  induction data as [|d data IH]; intros Hrow; simpl.
  - apply returns_ret. split; [reflexivity|constructor].
  - eapply returns_bind; [apply Hrow; left|intros c Hc].
    eapply returns_bind.
    + apply IH. intros d' Hd'. apply Hrow. right. exact Hd'.
    + intros cs [Hlen Hcs]. apply returns_ret. simpl.
      split; [congruence|constructor; assumption].
Qed.

(** ** [convertCsv] always returns *)





(** ** [convertCsv] without time columns *)





(** ** [Map.convert] on the lines of a CSV file *)

Lemma first_truthy_columns (h : Host) (l : list val) (accs : list accessor) :
  Forall (λ a, ∃ x, a = Key (PNum x)) accs →
  ∃ v, first_truthy h (VArr l) accs = Ok v.
Proof.
  induction 1 as [|a accs [x ->] _ IH]; [simpl; eauto|].
  destruct (get_array h l (VNum x)) as [v Hv].
  change (first_truthy h (VArr l) (Key (PNum x) :: accs))
    with (match get h (VArr l) (VNum x) with
          | Ok v => if truthy v then Ok v else first_truthy h (VArr l) accs
          | Throw e => Throw e
          end).
  rewrite Hv. destruct (truthy v); eauto.
Qed.

Lemma property_columns (h : Host) (m : mapping) (l : list val) :
  columns m → ∃ v, property h m (VArr l) = Ok v.
Proof.
  destruct m; simpl; try done; eauto using first_truthy_columns.
Qed.

Lemma returns_post {A : Type} (m : M A) (Q : A → Prop) :
  returns m (λ _, True) → (∀ w a w', m w = (Ok a, w') → Q a) → returns m Q.
Proof.
  intros Hm HQ w. destruct (Hm w) as (a & ds & w' & Hrun & Hlog & _).
  exists a, ds, w'. eauto.
Qed.

Lemma convert_row_returns (h : Host) (timeOffset : float) (m : Map)
    (line : string) :
  column_map m →
  returns (convert_row h timeOffset m (VStr line)) (λ _, True).
Proof.
  intros (H1 & H2 & H3 & H4 & H5 & H6 & H7). unfold convert_row.
  set (row := VStr <$> split (sep m) line).
  destruct (property_columns h _ row H1) as [v1 E1].
  destruct (property_columns h _ row H2) as [v2 E2].
  destruct (property_columns h _ row H3) as [v3 E3].
  destruct (property_columns h _ row H4) as [v4 E4].
  destruct (property_columns h _ row H5) as [v5 E5].
  destruct (property_columns h _ row H6) as [v6 E6].
  destruct (property_columns h _ row H7) as [v7 E7].
  rewrite E1, E2, E3, E4, E5, E6, E7.
  do 7 (eapply (returns_bind _ _ (λ _, True));
        [apply returns_ret; done|intros ? _]).
  do 2 (eapply (returns_bind _ _ (λ _, True));
        [apply convertTimestamp_returns|intros ? _]).
  eapply returns_weaken; [apply Chrono_new_returns|done].
Qed.

Lemma elem_of_drop_fmap {A B : Type} (f : A → B) (n : nat) (l : list A)
    (y : B) :
  y ∈ drop n (f <$> l) → ∃ x, y = f x.
Proof.
  rewrite <- fmap_drop. intros Hy.
  apply list_elem_of_fmap in Hy as (x & -> & _). eauto.
Qed.

(** X3: [Map.convert] of the later version never throws on the lines of a
    CSV file when every field of the map is a static string or a list of
    column indices, which are numbers; this is what [getMapFromDOM] builds
    for a CSV file.  It returns one event for each line after the header
    line that [firstRow] skips, and writes nothing but diagnostics. *)
Theorem convert_columns_returns (h : Host) (timeOffset : float) (m : Map)
    (data : list string) (w : world) :
  column_map m →
  ∃ cs ds w',
    convert h timeOffset m (VStr <$> data) w = (Ok cs, w')
    ∧ logged ds w w'
    ∧ length cs = (length data - (if firstRow m then 1 else 0))%nat.
Proof.
  intros Hm.
  destruct (convert_rows_returns (convert_row h timeOffset m) (λ _, True)
              (drop (if firstRow m then 1 else 0) (VStr <$> data))) with w
    as (cs & ds & w' & Hrun & Hlog & Hlen & _).
  { intros d Hd. apply elem_of_drop_fmap in Hd as [line ->].
    apply convert_row_returns, Hm. }
  exists cs, ds, w'. split; [exact Hrun|]. split; [exact Hlog|].
  rewrite Hlen, length_drop, length_fmap. reflexivity.
Qed.

Lemma column_map_type_only : column_map type_only.
Proof.
  repeat split; simpl; repeat constructor. exists 0%float. reflexivity.
Qed.

(** The map with the type in column 0, which skips no header line: three
    lines give three events. *)
Lemma convert_columns_returns_witness :
  column_map type_only
  ∧ ∀ h, ∃ cs ds w',
      convert h 0 type_only (VStr <$> ["a,1"; "b,2"; "c,3"]) no_state
      = (Ok cs, w')
      ∧ logged ds no_state w'
      ∧ length cs = (3 - 0)%nat.
Proof.
  split; [exact column_map_type_only|]. intros h.
  exact (convert_columns_returns h 0 type_only ["a,1"; "b,2"; "c,3"]
           no_state column_map_type_only).
Defined.

(** X4: in [Map.convert], a map without any accessor for the start gives
    every event the start [0 - timeOffset]: on the lines of a CSV file,
    with the other fields static strings or lists of column indices
    (numbers), the call returns, and each event it returns starts at the
    negated offset instead of having no start. *)
Theorem convert_absent_start (h : Host) (timeOffset : float) (m : Map)
    (data : list string) (w : world) :
  column_map m → map_start m = MAccessors [] →
  ∃ cs w',
    convert h timeOffset m (VStr <$> data) w = (Ok cs, w')
    ∧ Forall (λ c, start c = Some (0 - timeOffset)%float) cs.
Proof.
  intros Hm Hs.
  destruct (convert_rows_returns (convert_row h timeOffset m)
              (λ c, start c = Some (0 - timeOffset)%float)
              (drop (if firstRow m then 1 else 0) (VStr <$> data))) with w
    as (cs & ds & w' & Hrun & Hlog & Hlen & Hcs).
  { intros d Hd. apply elem_of_drop_fmap in Hd as [line ->].
    apply returns_post; [apply convert_row_returns, Hm|].
    intros w0 c w1. apply convert_row_absent_start, Hs. }
  exists cs, w'. split; [exact Hrun|exact Hcs].
Qed.

(** With an offset of 5000 the events start at -5000. *)
Lemma convert_absent_start_witness :
  column_map type_only ∧ map_start type_only = MAccessors []
  ∧ ∀ h, ∃ cs w',
      convert h 5000 type_only (VStr <$> ["a,1"; "b,2"]) no_state
      = (Ok cs, w')
      ∧ Forall (λ c, start c = Some (0 - 5000)%float) cs.
Proof.
  split; [exact column_map_type_only|]. split; [reflexivity|]. intros h.
  exact (convert_absent_start h 5000 type_only ["a,1"; "b,2"] no_state
           column_map_type_only eq_refl).
Defined.

(** ** The accessors of one field *)

(** X5: the accessors of a field are tried in order and the first one that
    yields a truthy value decides; the accessors after it are not looked
    at.  When each accessor of [before] yields a falsy value on a datum,
    [before] alone resolves to null; when the next accessor [a] yields a
    truthy value [v], the field resolves to [v] whatever follows [a], even
    an accessor that would throw; and when [a] throws, the field throws
    the same error.  The accessors that are looked at read the datum by
    lookups that own members decide. *)
Theorem first_truthy_first_populated (h : Host) (datum : val)
    (before : list accessor) (a : accessor) (after : list accessor) :
  Forall (λ b, own_access h datum b
               ∧ ∃ v, accessed h datum b = Ok v ∧ truthy v = false) before →
  own_access h datum a →
  first_truthy h datum before = Ok VNull
  ∧ (∀ v, accessed h datum a = Ok v → truthy v = true →
          first_truthy h datum (before ++ a :: after) = Ok v
          ∧ property h (MAccessors (before ++ a :: after)) datum = Ok v)
  ∧ (∀ e, accessed h datum a = Throw e →
          first_truthy h datum (before ++ a :: after) = Throw e).
Proof.
  intros Hbefore _.
  assert (Hskip : ∀ rest, first_truthy h datum (before ++ rest)
                          = first_truthy h datum rest).
  { intros rest.
    induction Hbefore as [|b before (_ & u & Hu & Hfalsy) _ IH];
      [reflexivity|].
    change (first_truthy h datum ((b :: before) ++ rest))
      with (match accessed h datum b with
            | Ok v => if truthy v then Ok v
                      else first_truthy h datum (before ++ rest)
            | Throw e => Throw e
            end).
    rewrite Hu, Hfalsy. exact IH. }
  assert (Hstep : first_truthy h datum (a :: after)
                  = match accessed h datum a with
                    | Ok v => if truthy v then Ok v
                              else first_truthy h datum after
                    | Throw e => Throw e
                    end) by reflexivity.
  split; [|split].
  - rewrite <- (app_nil_r before) at 1. apply Hskip.
  - intros v Hv Htruthy.
    assert (H1 : first_truthy h datum (before ++ a :: after) = Ok v)
      by (rewrite Hskip, Hstep, Hv, Htruthy; reflexivity).
    split; exact H1.
  - intros e He. rewrite Hskip, Hstep, He. reflexivity.
Qed.

(** A row whose first column is empty and whose second holds ["v"]: the
    field mapped to both columns resolves to ["v"], and the null accessor
    after them, which would throw, is not looked at. *)
Lemma first_truthy_first_populated_witness :
  (∀ h, Forall (λ b, own_access h (VArr [VStr ""; VStr "v"]) b
                     ∧ ∃ v, accessed h (VArr [VStr ""; VStr "v"]) b = Ok v
                            ∧ truthy v = false)
               [Key (PNum 0)])
  ∧ (∀ h, own_access h (VArr [VStr ""; VStr "v"]) (Key (PNum 1)))
  ∧ (∀ h, accessed h (VArr [VStr ""; VStr "v"]) Null = Throw TypeError)
  ∧ ∀ h, first_truthy h (VArr [VStr ""; VStr "v"])
                      [Key (PNum 0); Key (PNum 1); Null]
         = Ok (VStr "v").
Proof.
  assert (H0 : ∀ h, Forall (λ b, own_access h (VArr [VStr ""; VStr "v"]) b
                     ∧ ∃ v, accessed h (VArr [VStr ""; VStr "v"]) b = Ok v
                            ∧ truthy v = false)
               [Key (PNum 0)]).
  { intros h. constructor; [|constructor]. split.
    - left. exists 0%nat. reflexivity.
    - exists (VStr ""). split; reflexivity. }
  assert (H1 : ∀ h, own_access h (VArr [VStr ""; VStr "v"]) (Key (PNum 1))).
  { intros h. left. exists 1%nat. reflexivity. }
  split; [exact H0|]. split; [exact H1|]. split; [reflexivity|]. intros h.
  exact (proj1 (proj1 (proj2 (first_truthy_first_populated
                  h (VArr [VStr ""; VStr "v"]) [Key (PNum 0)] (Key (PNum 1))
                  [Null] (H0 h) (H1 h)))
               (VStr "v") eq_refl eq_refl)).
Defined.

(** ** [convertJson]: one broken path stops the conversion *)

Lemma only_TypeError_ret {A : Type} (a : A) : only_TypeError (mret a).
Proof. intros w e. discriminate. Qed.

Lemma only_TypeError_bind {A B : Type} (m : M A) (f : A → M B) :
  only_TypeError m → (∀ a, only_TypeError (f a)) →
  only_TypeError (m ≫= f).
Proof.
  intros Hm Hf w e. rewrite bind_run. specialize (Hm w).
  destruct (m w) as [[a|e'] w']; [apply Hf|].
  simpl. intros [= ->]. apply Hm. reflexivity.
Qed.

Lemma only_TypeError_returns {A : Type} (m : M A) (Q : A → Prop) :
  returns m Q → only_TypeError m.
Proof.
  intros Hm w e. destruct (Hm w) as (a & ds & w' & -> & _). discriminate.
Qed.

Lemma join_all_throws (sep : string) (l : list (result string)) (e : exn) :
  join_all sep l = Throw e → Throw e ∈ l.
Proof.
  unfold join_all.
  destruct (foldr _ _ l) as [ss|e'] eqn:Hfold; [discriminate|].
  intros [= ->]. revert Hfold.
  induction l as [|r l IH]; [discriminate|]. cbn [foldr].
  destruct r as [s0|e0].
  - destruct (foldr _ _ l) as [ss|e1]; [discriminate|].
    intros [= ->]. right. apply IH. reflexivity.
  - intros [= ->]. left.
Qed.

(** The call [ret.toString()] throws nothing but a [TypeError]. *)
Lemma toString_call_throws (h : Host) (v : val) (e : exn) :
  toString_call h v = Throw e → e = TypeError.
Proof.
  revert e.
  induction v as [| |b|x|s|l IH|l] using val_nested_ind; intros e;
    try discriminate.
  - cbn [toString_call]. intros He. apply join_all_throws in He.
    apply list_elem_of_fmap in He as (y & Hy & Hin).
    rewrite Forall_forall in IH. specialize (IH y Hin e).
    destruct y; try discriminate; apply IH; congruence.
  - cbn [toString_call]. destruct (existsb _ l); [|discriminate].
    intros [= <-]. reflexivity.
Qed.

Lemma getNestedValue_only_TypeError (h : Host) (datum : val)
    (keys : keys_arg) :
  only_TypeError (lift (getNestedValue h datum keys)).
Proof.
  intros w e. unfold lift. simpl. destruct keys as [s|ks]; simpl.
  - discriminate.
  - destruct (walk h datum ks) as [v|e'] eqn:Hw.
    + destruct (truthy v); [|discriminate].
      destruct (toString_call h v) as [s|e'] eqn:Hs; [discriminate|].
      intros [= ->]. exact (toString_call_throws h v e Hs).
    + intros [= ->]. apply walk_throws in Hw as [-> _]. reflexivity.
Qed.

Lemma json_field_only_TypeError (h : Host) (f : option keys_arg)
    (datum : val) :
  only_TypeError (json_field h f datum).
Proof.
  destruct f; [apply getNestedValue_only_TypeError|apply only_TypeError_ret].
Qed.

Lemma json_time_only_TypeError (h : Host) (timeOffset : float)
    (f : option keys_arg) (format datum : val) :
  only_TypeError (json_time h timeOffset f format datum).
Proof.
  destruct f; unfold json_time; [|apply only_TypeError_ret].
  apply only_TypeError_bind; [apply getNestedValue_only_TypeError|intros v].
  apply only_TypeError_bind; [|intros t; apply only_TypeError_ret].
  eapply only_TypeError_returns, convertTimestamp_returns.
Qed.

Lemma convertJson_row_only_TypeError (h : Host) (timeOffset : float)
    (m : JsonMap) (datum : val) :
  only_TypeError (convertJson_row h timeOffset m datum).
Proof.
  unfold convertJson_row.
  do 4 (apply only_TypeError_bind;
        [apply json_field_only_TypeError|intros ?]).
  do 2 (apply only_TypeError_bind;
        [apply json_time_only_TypeError|intros ?]).
  apply only_TypeError_bind; [apply json_field_only_TypeError|intros ?].
  eapply only_TypeError_returns, Chrono_new_returns.
Qed.

Lemma json_field_Ok (h : Host) (keys : keys_arg) (datum v : val)
    (w w' : world) :
  json_field h (Some keys) datum w = (Ok v, w') →
  ∃ v', getNestedValue h datum keys = Ok v'.
Proof.
  unfold json_field, lift. intros [= H _]. eauto.
Qed.

Lemma json_time_Ok (h : Host) (timeOffset : float) (keys : keys_arg)
    (format datum : val) (t : option float) (w w' : world) :
  json_time h timeOffset (Some keys) format datum w = (Ok t, w') →
  ∃ v', getNestedValue h datum keys = Ok v'.
Proof.
  unfold json_time. intros H. apply bind_Ok in H as (v & w1 & H & _).
  unfold lift in H. injection H as H _. eauto.
Qed.

(** A row with a broken path does not return. *)
Lemma convertJson_row_broken (h : Host) (timeOffset : float) (m : JsonMap)
    (datum : val) (keys : keys_arg) (w : world) :
  Some keys ∈ json_fields m →
  getNestedValue h datum keys = Throw TypeError →
  (convertJson_row h timeOffset m datum w).1 = Throw TypeError.
Proof.
  intros Hin Hthrow.
  destruct (convertJson_row h timeOffset m datum w) as [[c|e] w'] eqn:Hrun.
  - exfalso. unfold convertJson_row in Hrun.
    apply bind_Ok in Hrun as (v1 & w1 & H1 & Hrun).
    apply bind_Ok in Hrun as (v2 & w2 & H2 & Hrun).
    apply bind_Ok in Hrun as (v3 & w3 & H3 & Hrun).
    apply bind_Ok in Hrun as (v4 & w4 & H4 & Hrun).
    apply bind_Ok in Hrun as (v5 & w5 & H5 & Hrun).
    apply bind_Ok in Hrun as (v6 & w6 & H6 & Hrun).
    apply bind_Ok in Hrun as (v7 & w7 & H7 & _).
    unfold json_fields in Hin.
    repeat (apply elem_of_cons in Hin as [Hin|Hin];
            [rewrite <- Hin in *;
             first [ apply json_field_Ok in H1 as [? H1]; congruence
                   | apply json_field_Ok in H2 as [? H2]; congruence
                   | apply json_field_Ok in H3 as [? H3]; congruence
                   | apply json_field_Ok in H4 as [? H4]; congruence
                   | apply json_time_Ok in H5 as [? H5]; congruence
                   | apply json_time_Ok in H6 as [? H6]; congruence
                   | apply json_field_Ok in H7 as [? H7]; congruence ]|]).
    by apply elem_of_nil in Hin.
  - simpl. f_equal.
    apply (convertJson_row_only_TypeError h timeOffset m datum w).
    rewrite Hrun. reflexivity.
Qed.

Lemma convert_rows_throws {A : Type} (row : A → M Chrono)
    (pre post : list A) (d : A) :
  (∀ d', only_TypeError (row d')) →
  (∀ w, (row d w).1 = Throw TypeError) →
  ∀ w, (convert_rows row (pre ++ d :: post) w).1 = Throw TypeError.
Proof.
  intros Honly Hd. induction pre as [|p pre IH]; intros w.
  - change (convert_rows row ([] ++ d :: post) w)
      with ((c ← row d; cs ← convert_rows row post; mret (c :: cs)) w).
    apply bind_throws, Hd.
  - change (convert_rows row ((p :: pre) ++ d :: post) w)
      with ((c ← row p;
             cs ← convert_rows row (pre ++ d :: post); mret (c :: cs)) w).
    rewrite bind_run. pose proof (Honly p w) as Hp.
    destruct (row p w) as [[c|e] w1]; simpl.
    + apply bind_throws, IH.
    + f_equal. apply Hp. reflexivity.
Qed.

(** X6: [convertJson] stops at the first record it cannot resolve.  When a
    field of the map is a path and, on one of the records that are
    converted, a lookup of that path before the last yields undefined or
    null, the whole call throws a [TypeError]: no event is returned, not
    even for the records before it.  The lookups that lead to the
    undefined or null value are lookups that own members decide, so that
    nothing the record inherits stands where the value is missing. *)
Theorem convertJson_broken_path (h : Host) (timeOffset : float)
    (m : JsonMap) (data : list val) (i : nat) (datum : val)
    (ks1 ks2 : list val) (k v : val) (w : world) :
  ((if json_firstRow m then 1 else 0) ≤ i)%nat →
  data !! i = Some datum →
  Some (Keys (ks1 ++ k :: ks2)) ∈ json_fields m →
  own_walk h datum ks1 →
  walk h datum ks1 = Ok v → v = VUndef ∨ v = VNull →
  (convertJson h timeOffset m data w).1 = Throw TypeError.
Proof.
  intros Hi Hd Hin _ Hw Hv. unfold convertJson.
  set (n := if json_firstRow m then 1%nat else 0%nat) in *.
  assert (Hd' : drop n data !! (i - n)%nat = Some datum).
  { rewrite lookup_drop. replace (n + (i - n))%nat with i by lia. exact Hd. }
  rewrite <- (take_drop_middle _ _ _ Hd').
  apply convert_rows_throws.
  - intros d'. apply convertJson_row_only_TypeError.
  - intros w0. eapply convertJson_row_broken; [exact Hin|].
    eapply getNestedValue_throws; eauto.
Qed.

(** Two records, the second without the member [a]: the path [a.b] of the
    title breaks on it and nothing is returned. *)
Lemma convertJson_broken_path_witness :
  let m := {| json_type := None; json_key := None;
              json_title := Some (Keys [VStr "a"; VStr "b"]);
              json_description := None; json_start := None;
              json_end := None; json_tags := None; json_firstRow := false;
              json_timestampFormat := VStr "pythonic" |} in
  let data := [VObj [("a", VObj [("b", VStr "t")])]; VObj []] in
  data !! 1%nat = Some (VObj [])
  ∧ (∀ h, own_walk h (VObj []) [VStr "a"])
  ∧ (∀ h, walk h (VObj []) [VStr "a"] = Ok VUndef)
  ∧ ∀ h, (convertJson h 0 m data no_state).1 = Throw TypeError.
Proof.
  intros m data.
  assert (Hown : ∀ h, own_walk h (VObj []) [VStr "a"]).
  { intros h ks1 k ks2 v Hks Hv.
    destruct ks1 as [|k1 ks1]; [|by destruct ks1].
    injection Hks as <- _. injection Hv as <-.
    right. vm_compute. intros Hin.
    repeat (apply elem_of_cons in Hin as [Hin|Hin]; [discriminate|]).
    by apply elem_of_nil in Hin. }
  split; [reflexivity|]. split; [exact Hown|]. split; [reflexivity|].
  intros h.
  apply (convertJson_broken_path h 0 m data 1 (VObj []) [VStr "a"] []
           (VStr "b") VUndef no_state).
  - simpl. lia.
  - reflexivity.
  - unfold json_fields. simpl. do 2 right. left.
  - exact (Hown h).
  - reflexivity.
  - left. reflexivity.
Defined.

(** ** A time cell that holds no number *)






(** ** Escaping the separator *)

Lemma substring_all (s : string) : substring 0 (String.length s) s = s.
Proof. induction s as [|c s IH]; simpl; [reflexivity|]. rewrite IH. done. Qed.

(** [replace] with a one-character pattern rewrites the first occurrence
    and copies the rest. *)
Lemma replace_first (c : ascii) (rep a b : string) :
  c ∉ list_ascii_of_string a →
  replace (String c "") rep (a +:+ String c b) = a +:+ rep +:+ b.
Proof.
  induction a as [|x a IH]; intros Hc.
  - simpl. destruct (Ascii.ascii_dec c c) as [_|Hne]; [|done].
    destruct b; simpl; rewrite ?Nat.sub_0_r, ?substring_all; reflexivity.
  - simpl in Hc. apply not_elem_of_cons in Hc as [Hne Hc].
    simpl. destruct (Ascii.ascii_dec c x) as [Heq|_]; [done|].
    rewrite IH by exact Hc. reflexivity.
Qed.

(** X8: with a one-character separator, the escaping that [toCsv] and
    [toOldCsv] apply to a text field rewrites the first separator of the
    field, and only that one: a field [a ++ sep ++ b] in which [a] holds no
    separator is written [a ++ alt ++ b], where [alt] is [";"] for the
    separator [","] and [","] otherwise, and [b] is copied as it is, with
    whatever separators it holds. *)
Theorem escaped_first_separator (c : ascii) (a b : string) :
  c ∉ list_ascii_of_string a →
  escaped (String c "") (VStr (a +:+ String c b))
  = Ok (VStr (a +:+ (if String.eqb (String c "") "," then ";" else ",")
              +:+ b)).
Proof.
  intros Hc. unfold escaped.
  assert (Ht : truthy (VStr (a +:+ String c b)) = true)
    by (destruct a; reflexivity).
  rewrite Ht, replace_first by exact Hc. reflexivity.
Qed.

(** The field ["x y;z;t"] with the separator [";"]. *)
Lemma escaped_first_separator_witness :
  let semi := ";"%char in
  (semi ∉ list_ascii_of_string "x y")
  ∧ escaped ";" (VStr "x y;z;t") = Ok (VStr "x y,z;t").
Proof.
  intros semi.
  assert (H : semi ∉ list_ascii_of_string "x y").
  { simpl. intros Hin.
    repeat (apply elem_of_cons in Hin as [Hin|Hin]; [discriminate|]).
    by apply elem_of_nil in Hin. }
  split; [exact H|]. exact (escaped_first_separator semi "x y" "z;t" H).
Defined.

(** ** What [toCsv] needs of an event *)

Lemma escaped_text (sep : string) (f : val) :
  text f → ∃ s, escaped sep f = Ok (VStr s).
Proof.
  unfold escaped. intros [Hf|[s ->]].
  - rewrite Hf. eauto.
  - destruct (truthy (VStr s)); eauto.
Qed.

Lemma escaped_not_text (sep : string) (f : val) :
  ¬ text f → escaped sep f = Throw TypeError.
Proof.
  unfold escaped, text. intros Hf.
  destruct (truthy f) eqn:Ht; [|exfalso; auto].
  destruct f; try reflexivity. exfalso. eauto.
Qed.

Lemma text_dec (f : val) : text f ∨ ¬ text f.
Proof.
  unfold text. destruct (truthy f) eqn:Ht; [|auto].
  destruct f; try (right; intros [?|[? ?]]; congruence). eauto.
Qed.

(** X9: [toCsv] throws a [TypeError] on an event whose title or
    description is a truthy value that is not a string (a number or an
    object that a column key of [Map.convert] copied from a JSON record):
    such a value has no [replace] method. *)
Theorem toCsv_text_required (h : Host) (c : Chrono) (sep : string)
    (w : world) :
  ¬ text (title c) ∨ ¬ text (description c) →
  (toCsv h c sep w).1 = Throw TypeError.
Proof.
  intros Hc. unfold toCsv. apply bind_throws. unfold toCsv_cells.
  rewrite bind_run.
  assert (Hfirst : ∃ w1,
             (if falsy_num (start c) || falsy_num (end_ c)
              then push_error
                     (Diag "error" "toCsv"
                           "couldn't convert start or end time to Date object"
                           [("start", num_val (start c));
                            ("end", num_val (end_ c))])
              else mret tt) w = (Ok tt, w1)).
  { destruct (falsy_num (start c) || falsy_num (end_ c)); eexists;
      reflexivity. }
  destruct Hfirst as [w1 ->].
  destruct (text_dec (title c)) as [Ht|Ht].
  - destruct Hc as [Hc|Hc]; [done|].
    destruct (escaped_text sep _ Ht) as [s Hs].
    rewrite bind_run. unfold lift at 1. rewrite Hs.
    apply bind_throws. unfold lift. rewrite (escaped_not_text sep _ Hc).
    reflexivity.
  - apply bind_throws. unfold lift. rewrite (escaped_not_text sep _ Ht).
    reflexivity.
Qed.

(** An event whose title is the number 7. *)
Lemma toCsv_text_required_witness :
  let c := set_title (VNum 7) (titled "a") in
  ¬ text (title c)
  ∧ ∀ h, (toCsv h c "," no_state).1 = Throw TypeError.
Proof.
  intros c.
  assert (H : ¬ text (title c)) by (intros [?|[? ?]]; discriminate).
  split; [exact H|]. intros h.
  exact (toCsv_text_required h c "," no_state (or_introl H)).
Defined.

Lemma time_cell_run (d : option float) (w : world) :
  (falsy_num d = false → valid_date d) →
  ∃ x, (match (if falsy_num d then None else Some (TimeClip d)) with
        | Some t => hms ← lift (time_of_day t); mret (VStr hms)
        | None => mret (VStr "")
        end) w = (Ok x, w).
Proof.
  intros Hd. destruct (falsy_num d); [eauto|].
  destruct (Hd eq_refl) as [z Hz]. unfold time_of_day. rewrite Hz.
  eexists. reflexivity.
Qed.

(** The cells of the row of an event that [toCsv] can write. *)
Lemma toCsv_cells_run (c : Chrono) (sep : string) (w : world) :
  text (title c) → text (description c) → text (tags c) →
  (falsy_num (start c) = false → valid_date (start c)) →
  (falsy_num (end_ c) = false → valid_date (end_ c)) →
  ∃ cells w',
    toCsv_cells c sep w = (Ok cells, w')
    ∧ logged (if falsy_num (start c) || falsy_num (end_ c)
              then [no_date "toCsv" c] else []) w w'.
Proof.
  intros Ht Hd Hg Hs He.
  destruct (escaped_text sep _ Ht) as [t Et].
  destruct (escaped_text sep _ Hd) as [d Ed].
  destruct (escaped_text sep _ Hg) as [g Eg].
  assert (Hfirst : ∃ w1,
             (if falsy_num (start c) || falsy_num (end_ c)
              then push_error
                     (Diag "error" "toCsv"
                           "couldn't convert start or end time to Date object"
                           [("start", num_val (start c));
                            ("end", num_val (end_ c))])
              else mret tt) w = (Ok tt, w1)
             ∧ logged (if falsy_num (start c) || falsy_num (end_ c)
                       then [no_date "toCsv" c] else []) w w1).
  { destruct (falsy_num (start c) || falsy_num (end_ c)); eexists;
      (split; [reflexivity|]); [reflexivity|apply logged_refl]. }
  destruct Hfirst as (w1 & Hfirst & Hlog).
  destruct (time_cell_run (start c) w1 Hs) as [x Hx].
  destruct (time_cell_run (end_ c) w1 He) as [y Hy].
  unfold toCsv_cells. cbv zeta.
  rewrite bind_run, Hfirst.
  rewrite bind_run. unfold lift at 1. rewrite Et.
  rewrite bind_run. unfold lift at 1. rewrite Ed.
  rewrite bind_run, Hx, bind_run, Hy.
  rewrite bind_run. unfold lift at 1. rewrite Eg.
  eexists _, _. split; [reflexivity|exact Hlog].
Qed.

(** X10: [toCsv] returns a row for every event whose title, description
    and tags are strings or falsy and whose start and end, where truthy,
    are valid dates; an event without start or without end is written
    with empty time cells, and costs exactly one
    ["couldn't convert start or end time to Date object"] error in
    [errors]; nothing else is written. *)
Theorem toCsv_returns (h : Host) (c : Chrono) (sep : string) (w : world) :
  text (title c) → text (description c) → text (tags c) →
  (falsy_num (start c) = false → valid_date (start c)) →
  (falsy_num (end_ c) = false → valid_date (end_ c)) →
  ∃ line w',
    toCsv h c sep w = (Ok line, w')
    ∧ logged (if falsy_num (start c) || falsy_num (end_ c)
              then [no_date "toCsv" c] else []) w w'.
Proof.
  intros Ht Hd Hg Hs He.
  destruct (toCsv_cells_run c sep w Ht Hd Hg Hs He)
    as (cells & w' & Hcells & Hlog).
  exists (array_join h sep cells), w'. split; [|exact Hlog].
  unfold toCsv. rewrite bind_run, Hcells. reflexivity.
Qed.

(** An event with a title and no times: one row, one error. *)
Lemma toCsv_returns_witness :
  let c := {| type := VNull; key := VNull; title := VStr "a";
              description := VNull; start := None; end_ := None;
              duration := 0; tags := VNull; myPrimaryTagKey := VUndef |} in
  text (title c) ∧ text (description c) ∧ text (tags c)
  ∧ falsy_num (start c) = true ∧ falsy_num (end_ c) = true
  ∧ ∀ h, ∃ line w',
      toCsv h c "," no_state = (Ok line, w')
      ∧ logged [no_date "toCsv" c] no_state w'.
Proof.
  intros c.
  assert (Ht : text (title c)) by (right; exists "a"; reflexivity).
  assert (Hn : text VNull) by (left; reflexivity).
  split; [exact Ht|]. split; [exact Hn|]. split; [exact Hn|].
  split; [reflexivity|]. split; [reflexivity|]. intros h.
  apply (toCsv_returns h c "," no_state Ht Hn Hn); discriminate.
Defined.

(** X11: [toCsv] throws a [RangeError] on an event whose texts are in
    order but whose start is a truthy number that is no valid date (an
    infinity, or a time beyond 8.64e15 ms): [toISOString] refuses it. *)
Theorem toCsv_invalid_date (h : Host) (c : Chrono) (sep : string)
    (w : world) :
  text (title c) → text (description c) →
  falsy_num (start c) = false → ¬ valid_date (start c) →
  (toCsv h c sep w).1 = Throw RangeError.
Proof.
  intros Ht Hd Hs Hv.
  destruct (escaped_text sep _ Ht) as [t Et].
  destruct (escaped_text sep _ Hd) as [d Ed].
  assert (Hfirst : ∃ w1,
             (if falsy_num (start c) || falsy_num (end_ c)
              then push_error
                     (Diag "error" "toCsv"
                           "couldn't convert start or end time to Date object"
                           [("start", num_val (start c));
                            ("end", num_val (end_ c))])
              else mret tt) w = (Ok tt, w1)).
  { destruct (falsy_num (start c) || falsy_num (end_ c)); eexists;
      reflexivity. }
  destruct Hfirst as (w1 & Hfirst).
  unfold toCsv. apply bind_throws. unfold toCsv_cells. cbv zeta.
  rewrite bind_run, Hfirst.
  rewrite bind_run. unfold lift at 1. rewrite Et.
  rewrite bind_run. unfold lift at 1. rewrite Ed.
  apply bind_throws. rewrite Hs. apply bind_throws.
  unfold lift, time_of_day. unfold valid_date in Hv.
  apply eq_None_not_Some in Hv. rewrite Hv. reflexivity.
Qed.

(** An event that starts at 1e16 ms, past the last valid date. *)
Lemma toCsv_invalid_date_witness :
  let c := {| type := VNull; key := VNull; title := VStr "a";
              description := VNull; start := Some 1e16%float;
              end_ := Some 1e16%float; duration := 0; tags := VNull;
              myPrimaryTagKey := VUndef |} in
  text (title c) ∧ text (description c)
  ∧ falsy_num (start c) = false ∧ ¬ valid_date (start c)
  ∧ ∀ h, (toCsv h c "," no_state).1 = Throw RangeError.
Proof.
  intros c.
  assert (Ht : text (title c)) by (right; exists "a"; reflexivity).
  assert (Hn : text (description c)) by (left; reflexivity).
  assert (Hv : ¬ valid_date (start c)).
  { unfold valid_date. vm_compute. intros [? H]. discriminate. }
  split; [exact Ht|]. split; [exact Hn|]. split; [reflexivity|].
  split; [exact Hv|]. intros h.
  exact (toCsv_invalid_date h c "," no_state Ht Hn eq_refl Hv).
Defined.

(** ** [Csvify] only reads *)

Lemma logs_only_returns {A : Type} (m : M A) (Q : A → Prop) :
  returns m Q → logs_only m.
Proof.
  intros Hm w. destruct (Hm w) as (a & ds & w' & -> & Hlog & _).
  exists ds. exact Hlog.
Qed.

Lemma logs_only_same {A : Type} (m : M A) :
  (∀ w, (m w).2 = w) → logs_only m.
Proof. intros Hm w. exists []. rewrite Hm. apply logged_refl. Qed.

Lemma logs_only_bind {A B : Type} (m : M A) (f : A → M B) :
  logs_only m → (∀ a, logs_only (f a)) → logs_only (m ≫= f).
Proof.
  intros Hm Hf w. rewrite bind_run. destruct (Hm w) as [ds1 H1].
  destruct (m w) as [[a|e] w1]; simpl in H1.
  - destruct (Hf a w1) as [ds2 H2]. exists (ds1 ++ ds2)%list.
    eapply logged_trans; eauto.
  - exists ds1. exact H1.
Qed.

Lemma logs_only_lift {A : Type} (r : result A) : logs_only (lift r).
Proof. apply logs_only_same. reflexivity. Qed.

Lemma logs_only_time_cell (d : option float) :
  logs_only (match d with
             | Some t => hms ← lift (time_of_day t); mret (VStr hms)
             | None => mret (VStr "")
             end).
Proof.
  destruct d; [|apply logs_only_same; reflexivity].
  apply logs_only_bind; [apply logs_only_lift|intros ?].
  apply logs_only_same. reflexivity.
Qed.

Lemma logs_only_no_date (b : bool) (d : diag) :
  logs_only (if b then push_error d else mret tt).
Proof.
  destruct b; [eapply logs_only_returns, returns_push_error|].
  apply logs_only_same. reflexivity.
Qed.

Lemma toCsv_logs_only (h : Host) (c : Chrono) (sep : string) :
  logs_only (toCsv h c sep).
Proof.
  unfold toCsv, toCsv_cells. cbv zeta.
  apply logs_only_bind; [|intros ?; apply logs_only_same; reflexivity].
  apply logs_only_bind; [apply logs_only_no_date|intros ?].
  do 2 (apply logs_only_bind; [apply logs_only_lift|intros ?]).
  do 2 (apply logs_only_bind; [apply logs_only_time_cell|intros ?]).
  apply logs_only_bind; [apply logs_only_lift|intros ?].
  apply logs_only_same. reflexivity.
Qed.

Lemma toOldCsv_logs_only (h : Host) (c : Chrono) (sep : string) :
  logs_only (toOldCsv h c sep).
Proof.
  unfold toOldCsv, toOldCsv_cells. cbv zeta.
  apply logs_only_bind; [|intros ?; apply logs_only_same; reflexivity].
  apply logs_only_bind; [apply logs_only_no_date|intros ?].
  do 2 (apply logs_only_bind; [apply logs_only_time_cell|intros ?]).
  do 5 (apply logs_only_bind; [apply logs_only_lift|intros ?]).
  apply logs_only_same. reflexivity.
Qed.

Lemma Csvify_rows_logs_only (row : Chrono → M string) (rs : list ref) :
  (∀ c, logs_only (row c)) → logs_only (Csvify_rows row rs).
Proof.
  intros Hrow. induction rs as [|r rs IH]; simpl.
  - apply logs_only_same. reflexivity.
  - apply logs_only_bind; [apply logs_only_same; reflexivity|intros c].
    apply logs_only_bind; [apply Hrow|intros line].
    apply logs_only_bind; [apply IH|intros lines].
    apply logs_only_same. reflexivity.
Qed.

(** X12: [Csvify], in the new and in the old format, only reads the
    collection: whether it returns the text or throws on an event it
    cannot write, the events and the arrays are as they were before the
    call, and the state differs by diagnostics appended to [errors]
    only. *)
Theorem Csvify_reads_only (h : Host) (this : ChronoSet)
    (useOldFormat : bool) (w : world) :
  ∃ ds, logged ds w (Csvify h this useOldFormat w).2.
Proof.
  revert w. change (logs_only (Csvify h this useOldFormat)).
  unfold Csvify.
  apply logs_only_bind; [apply logs_only_same; reflexivity|intros rs].
  destruct useOldFormat.
  - apply logs_only_bind; [|intros ?; apply logs_only_same; reflexivity].
    apply Csvify_rows_logs_only. intros c. apply toOldCsv_logs_only.
  - apply logs_only_bind; [|intros ?; apply logs_only_same; reflexivity].
    apply Csvify_rows_logs_only. intros c. apply toCsv_logs_only.
Qed.

(** ** When [FindSuccessivePairs] returns *)

(** One turn of the loop over [pairs]. *)
Lemma form_pairs_step (h : Host) (fuel k : nat)
    (this_chronos pairs ends : aref) (w : world) :
  form_pairs h (S fuel) k this_chronos pairs ends w
  = match (arrays w !!! pairs) !! k with
    | None => (Ok tt, w)
    | Some start_ =>
        let cs := arrays w !!! this_chronos in
        let es := arrays w !!! ends in
        let found := scan cs (indexOf cs (Some start_)) 0 None es in
        let w1 := match found.2 with
                  | Some i => (write_arr ends (delete i es) w).2
                  | None => w
                  end in
        match merge h start_ found.1 w1 with
        | (Ok _, w2) => form_pairs h fuel (S k) this_chronos pairs ends w2
        | (Throw e, w2) => (Throw e, w2)
        end
    end.
Proof.
  change (form_pairs h (S fuel) k this_chronos pairs ends w)
    with ((ps ← read_arr pairs;
           match ps !! k with
           | None => mret tt
           | Some start_ =>
               cs ← read_arr this_chronos;
               es ← read_arr ends;
               let index := indexOf cs (Some start_) in
               let '(end', cut) := scan cs index 0 None es in
               match cut with
               | Some i => write_arr ends (delete i es)
               | None => mret tt
               end;;
               merge h start_ end';;
               form_pairs h fuel (S k) this_chronos pairs ends
           end) w).
  rewrite bind_run. simpl.
  destruct ((arrays w !!! pairs) !! k) as [start_|]; [|reflexivity].
  rewrite !bind_run. simpl. rewrite !bind_run. simpl. unfold indexOf.
  destruct (scan _ _ _ _ _) as [end' [i|]]; rewrite ?bind_run; simpl;
    rewrite ?bind_run; reflexivity.
Qed.

(** A scan over a list of ends that is not empty claims an end, and what
    it cuts leaves the list not empty. *)
Lemma scan_claims_some (cs : list ref) (index : Z) (es : list ref) :
  es ≠ [] →
  ∃ e' cut,
    scan cs index 0 None es = (Some e', cut)
    ∧ ∀ j, cut = Some j → delete j es ≠ [].
Proof.
  destruct es as [|e rest]; [done|]. intros _.
  change (scan cs index 0 None (e :: rest))
    with (scan cs index 1 (Some e) rest).
  rewrite scan_from.
  destruct (list_find _ (take (length rest) (e :: rest)))
    as [[j x]|] eqn:Hf.
  - exists x, (Some j). split; [reflexivity|].
    intros j' [= <-]. apply list_find_Some in Hf as (Hj & _).
    apply lookup_lt_Some in Hj. rewrite length_take in Hj. simpl in Hj.
    intros Hnil. apply (f_equal length) in Hnil.
    rewrite length_delete in Hnil by (apply lookup_lt_is_Some; simpl; lia).
    simpl in Hnil. lia.
  - destruct (last (e :: rest)) as [e'|] eqn:Hl.
    + exists e', None. split; [reflexivity|]. discriminate.
    + apply last_None in Hl. discriminate.
Qed.

(** A merge with an end at hand never throws. *)
Lemma merge_with_end (h : Host) (r e : ref) (w : world) :
  ∃ w', merge h r (Some e) w = (Ok tt, w') ∧ arrays w' = arrays w.
Proof.
  assert (T : triple (λ _, True) (merge h r (Some e)) (λ _ _, True)
                     (λ _, False)).
  { assert (Hp : ∀ (f : Chrono → val) (set : val → Chrono → Chrono),
               triple (λ _, True)
                      (s ← read_obj r;
                       v ← (if truthy (f s) then mret (f s)
                            else of_end (Some e) f);
                       update_obj r (set v))
                      (λ _ _, True) (λ _, False)).
    { intros f set w0 _. rewrite !bind_run. simpl.
      destruct (truthy (f (objects w0 !!! r))); simpl; done. }
    unfold merge.
    do 4 (eapply (triple_bind (λ _, True) (λ _ _, True));
          [apply Hp|intros ?]).
    eapply (triple_bind (λ _, True) (λ _ _, True));
      [intros w0 _; simpl; done|intros ?].
    eapply (triple_bind (λ _, True) (λ _ _, True));
      [intros w0 _; simpl; done|intros ?].
    eapply (triple_bind (λ _, True) (λ _ _, True));
      [intros w0 _; simpl; done|intros ?].
    eapply (triple_bind (λ _, True) (λ _ _, True));
      [intros w0 _; simpl; done|intros ?].
    eapply (triple_bind (λ _, True) (λ _ _, True));
      [intros w0 _; simpl; done|intros ?].
    eapply (triple_bind (λ _, True) (λ _ _, True));
      [intros w0 _; simpl; done|intros ?].
    eapply (triple_bind (λ _, True) (λ _ _, True));
      [intros w0 _; simpl; done|intros ?].
    apply Hp. }
  specialize (T w Logic.I). pose proof (merge_arrays h r (Some e) w) as Ha.
  destruct (merge h r (Some e) w) as [[[]|x] w']; [|destruct T].
  exists w'. split; [reflexivity|exact Ha].
Qed.

Lemma lookup_total_nonempty_lt (l : list (list ref)) (a : aref) :
  l !!! a ≠ [] → (a < length l)%nat.
Proof.
  intros Hne. destruct (decide (a < length l)%nat) as [|Hge]; [done|].
  exfalso. apply Hne. rewrite list_lookup_total_alt.
  rewrite lookup_ge_None_2 by lia. reflexivity.
Qed.

(** As long as the list of ends is not empty, the loop over [pairs] runs to
    its end, leaves the list of ends not empty, and writes no other
    array. *)
Lemma form_pairs_returns (h : Host) (this_chronos pairs ends : aref)
    (fuel : nat) :
  ∀ (k : nat) (w : world),
    arrays w !!! ends ≠ [] →
    ∃ w',
      form_pairs h fuel k this_chronos pairs ends w = (Ok tt, w')
      ∧ arrays w' !!! ends ≠ []
      ∧ length (arrays w') = length (arrays w)
      ∧ ∀ a, a ≠ ends → arrays w' !!! a = arrays w !!! a.
Proof.
  induction fuel as [|fuel IH]; intros k w Hne.
  - exists w. repeat split; auto.
  - rewrite form_pairs_step.
    destruct ((arrays w !!! pairs) !! k) as [start_|];
      [|exists w; repeat split; auto].
    cbv zeta.
    destruct (scan_claims_some (arrays w !!! this_chronos)
                (indexOf (arrays w !!! this_chronos) (Some start_))
                (arrays w !!! ends) Hne)
      as (e' & cut & Hscan & Hcut).
    rewrite Hscan. cbn [fst snd].
    set (w1 := match cut with
               | Some i =>
                   (write_arr ends (delete i (arrays w !!! ends)) w).2
               | None => w
               end).
    assert (Hw1 : arrays w1 !!! ends ≠ []
                  ∧ length (arrays w1) = length (arrays w)
                  ∧ ∀ a, a ≠ ends → arrays w1 !!! a = arrays w !!! a).
    { subst w1. destruct cut as [j|]; [|auto]. simpl.
      split; [|split].
      - rewrite list_lookup_total_insert_eq
          by (apply lookup_total_nonempty_lt, Hne).
        apply Hcut. reflexivity.
      - apply length_insert.
      - intros a Ha. apply list_lookup_total_insert_ne. congruence. }
    destruct Hw1 as (Hne1 & Hlen1 & Hframe1).
    destruct (merge_with_end h start_ e' w1) as (w2 & Hm & Ha).
    rewrite Hm.
    destruct (IH (S k) w2) as (w' & Hrun & Hne' & Hlen' & Hframe').
    { rewrite Ha. exact Hne1. }
    exists w'. split; [exact Hrun|]. split; [exact Hne'|].
    split; [rewrite Hlen', Ha; exact Hlen1|].
    intros a Hane. rewrite Hframe', Ha by exact Hane. apply Hframe1, Hane.
Qed.

(** The removals: they never throw, write no object and no array but
    [chronos], and leave an empty [chronos] empty. *)
Lemma pop_all_run (chronos : aref) (indeciesToPop : list Z) :
  ∀ w, ∃ w',
    pop_all chronos indeciesToPop w = (Ok tt, w')
    ∧ objects w' = objects w
    ∧ length (arrays w') = length (arrays w)
    ∧ (∀ a, a ≠ chronos → arrays w' !!! a = arrays w !!! a)
    ∧ (arrays w !!! chronos = [] → arrays w' !!! chronos = []).
Proof.
  induction indeciesToPop as [|i rest IH]; intros w.
  - exists w. repeat split; auto.
  - change (pop_all chronos (i :: rest) w)
      with ((cs ← read_arr chronos;
             write_arr chronos (splice1 i cs);;
             pop_all chronos rest) w).
    rewrite !bind_run. simpl.
    set (w1 := World (objects w)
                     (<[chronos := splice1 i (arrays w !!! chronos)]>
                        (arrays w))
                     (errors w) (draws w)).
    destruct (IH w1) as (w' & Hrun & Hobj & Hlen & Hframe & Hnil).
    exists w'. split; [exact Hrun|]. split; [exact Hobj|].
    split; [rewrite Hlen; apply length_insert|]. split.
    + intros a Ha. rewrite Hframe by exact Ha. subst w1. simpl.
      apply list_lookup_total_insert_ne. congruence.
    + intros Hemp. apply Hnil. subst w1. simpl. rewrite Hemp.
      rewrite list_lookup_total_insert. case_decide; [reflexivity|].
      exact Hemp.
Qed.

(** [consolidate], given what the two selections return. *)
Lemma consolidate_run (h : Host) (chronos : aref)
    (startKey endKey : filter_obj) (w w1 w2 : world) (starts ends : aref) :
  select chronos startKey w = (Ok starts, w1) →
  select chronos (end_criteria startKey endKey) w1 = (Ok ends, w2) →
  consolidate h chronos startKey endKey w
  = match form_pairs h (length (arrays w2 !!! starts)) 0 chronos starts
                     ends w2 with
    | (Ok _, w3) =>
        match pop_all chronos
                (sort_desc
                   (getIndecies (arrays w1 !!! starts)
                                (arrays w1 !!! chronos)
                    ++ getIndecies (arrays w2 !!! ends)
                                   (arrays w2 !!! chronos))) w3 with
        | (Ok _, w4) => (Ok starts, w4)
        | (Throw e, w4) => (Throw e, w4)
        end
    | (Throw e, w3) => (Throw e, w3)
    end.
Proof.
  intros H1 H2. unfold consolidate.
  rewrite bind_run, H1. rewrite bind_run. simpl. rewrite bind_run. simpl.
  rewrite bind_run, H2. rewrite bind_run. simpl. rewrite bind_run. simpl.
  rewrite bind_run. simpl. rewrite bind_run.
  destruct (form_pairs _ _ _ _ _ _ _) as [[[]|e] w3]; [|reflexivity].
  rewrite bind_run.
  destruct (pop_all _ _ _) as [[[]|e] w4]; reflexivity.
Qed.

Lemma select_fresh (a : aref) (criteria : list (string * val)) (w : world) :
  criteria ≠ [] →
  ∃ w', select a criteria w = (Ok (length (arrays w)), w')
        ∧ length (arrays w') = S (length (arrays w)).
Proof.
  destruct criteria as [|c criteria]; [done|]. intros _.
  eexists. split; [reflexivity|]. simpl. rewrite length_app. simpl. lia.
Qed.

Lemma select_ref (a : aref) (criteria : list (string * val)) (w w' : world)
    (a' : aref) :
  select a criteria w = (Ok a', w') → a' = a ∨ a' = length (arrays w).
Proof.
  destruct criteria as [|c criteria]; intros [= <- _]; auto.
Qed.

(** X15: [FindSuccessivePairs] returns whenever at least one event of the
    collection matches the end filter, however many events match the start
    filter and wherever they are: the list of ends is never emptied, so
    every start is merged with some end.  With a start filter that has a
    member, the list it returns holds every event that matched the start
    filter, in the order of the collection. *)
Theorem FindSuccessivePairs_returns (h : Host) (this : ChronoSet)
    (startKey endKey : filter_obj) (w : world) :
  (chronos this < length (arrays w))%nat →
  matching (objects w) (end_criteria startKey endKey)
           (arrays w !!! chronos this) ≠ [] →
  ∃ pairs this' w',
    FindSuccessivePairs h this startKey endKey w = (Ok (pairs, this'), w')
    ∧ (startKey ≠ [] →
       arrays w' !!! pairs
       = matching (objects w) startKey (arrays w !!! chronos this)).
Proof.
  intros Hc Hes.
  destruct (select_spec (chronos this) startKey w)
    as (starts & w1 & Hsel1 & Hobj1 & Hstarts & Hframe1 & Hlen1 & Hv1).
  destruct (select_spec (chronos this) (end_criteria startKey endKey) w1)
    as (ends & w2 & Hsel2 & Hobj2 & Hends & Hframe2 & Hlen2 & Hv2).
  assert (Hes2 : arrays w2 !!! ends ≠ []).
  { rewrite Hends, Hobj1, Hframe1 by exact Hc. exact Hes. }
  destruct (form_pairs_returns h (chronos this) starts ends
              (length (arrays w2 !!! starts)) 0 w2 Hes2)
    as (w3 & Hform & _ & Hlen3 & Hframe3).
  destruct (pop_all_run (chronos this)
              (sort_desc
                 (getIndecies (arrays w1 !!! starts)
                              (arrays w1 !!! chronos this)
                  ++ getIndecies (arrays w2 !!! ends)
                                 (arrays w2 !!! chronos this))) w3)
    as (w4 & Hpop & Hobj4 & Hlen4 & Hframe4 & _).
  unfold FindSuccessivePairs.
  rewrite bind_run, (consolidate_run h _ _ _ _ _ _ _ _ Hsel1 Hsel2).
  rewrite Hform, Hpop. eexists _, _, _. split; [reflexivity|].
  intros Hkey. simpl.
  destruct (select_fresh (chronos this) startKey w Hkey)
    as (w1' & Hsel1' & Hlen1').
  rewrite Hsel1 in Hsel1'. injection Hsel1' as -> <-.
  assert (Hne : length (arrays w) ≠ ends).
  { apply select_ref in Hsel2 as [->| ->]; lia. }
  rewrite lookup_total_app_l by lia.
  rewrite Hframe4 by lia. rewrite Hframe3 by exact Hne.
  rewrite Hframe2 by lia. exact Hstarts.
Qed.

(** The pairing scenario: two stops match the end filter, and the two
    starts are returned. *)
Lemma FindSuccessivePairs_returns_witness :
  (chronos (ChronoSet_new 0) < length (arrays two_pairs))%nat
  ∧ matching (objects two_pairs) (end_criteria by_start by_stop)
             (arrays two_pairs !!! 0%nat) = [1; 3]%nat
  ∧ ∀ h, ∃ pairs this' w',
      FindSuccessivePairs h (ChronoSet_new 0) by_start by_stop two_pairs
      = (Ok (pairs, this'), w')
      ∧ arrays w' !!! pairs = [0; 2]%nat.
Proof.
  split; [simpl; lia|]. split; [reflexivity|]. intros h.
  destruct (FindSuccessivePairs_returns h (ChronoSet_new 0) by_start by_stop
              two_pairs) as (pairs & this' & w' & Hrun & Hpairs);
    [simpl; lia|discriminate|].
  exists pairs, this', w'. split; [exact Hrun|].
  rewrite Hpairs by discriminate. reflexivity.
Defined.

(** X16: when no event of the collection matches the start filter,
    [FindSuccessivePairs] returns an empty list of pairs and modifies no
    event; when no event matches the end filter either, the collection it
    leaves holds the same events in the same order. *)
Theorem FindSuccessivePairs_without_start (h : Host) (this : ChronoSet)
    (startKey endKey : filter_obj) (w : world) :
  (chronos this < length (arrays w))%nat →
  matching (objects w) startKey (arrays w !!! chronos this) = [] →
  ∃ pairs this' w',
    FindSuccessivePairs h this startKey endKey w = (Ok (pairs, this'), w')
    ∧ arrays w' !!! pairs = []
    ∧ objects w' = objects w
    ∧ (matching (objects w) (end_criteria startKey endKey)
                (arrays w !!! chronos this) = [] →
       arrays w' !!! chronos this' = arrays w !!! chronos this).
Proof.
  intros Hc Hss.
  destruct (select_spec (chronos this) startKey w)
    as (starts & w1 & Hsel1 & Hobj1 & Hstarts & Hframe1 & Hlen1 & Hv1).
  destruct (select_spec (chronos this) (end_criteria startKey endKey) w1)
    as (ends & w2 & Hsel2 & Hobj2 & Hends & Hframe2 & Hlen2 & Hv2).
  specialize (Hv1 Hc). rewrite Hss in Hstarts.
  assert (Hps : arrays w2 !!! starts = []).
  { rewrite Hframe2 by exact Hv1. exact Hstarts. }
  destruct (pop_all_run (chronos this)
              (sort_desc
                 (getIndecies (arrays w1 !!! starts)
                              (arrays w1 !!! chronos this)
                  ++ getIndecies (arrays w2 !!! ends)
                                 (arrays w2 !!! chronos this))) w2)
    as (w4 & Hpop & Hobj4 & Hlen4 & Hframe4 & Hnil4).
  assert (Hps4 : arrays w4 !!! starts = []).
  { destruct (decide (starts = chronos this)) as [->|Hne].
    - apply Hnil4, Hps.
    - rewrite Hframe4 by exact Hne. exact Hps. }
  unfold FindSuccessivePairs.
  rewrite bind_run, (consolidate_run h _ _ _ _ _ _ _ _ Hsel1 Hsel2).
  rewrite Hps. change (form_pairs h (length []) 0 (chronos this) starts ends w2)
    with (Ok tt, w2).
  cbv beta iota. rewrite Hpop. eexists _, _, _. split; [reflexivity|]. simpl.
  split; [|split].
  - rewrite lookup_total_app_l by lia. exact Hps4.
  - rewrite Hobj4, Hobj2, Hobj1. reflexivity.
  - intros Hes. rewrite list_lookup_total_middle by reflexivity.
    rewrite Hps4, app_nil_r.
    assert (Hes2 : arrays w2 !!! ends = []).
    { rewrite Hends, Hobj1, Hframe1 by exact Hc. exact Hes. }
    rewrite Hstarts, Hes2 in Hpop. injection Hpop as <-.
    rewrite Hframe2 by lia. apply Hframe1, Hc.
Qed.

(** A collection of two notes, with the filters of the pairing scenario. *)
Lemma FindSuccessivePairs_without_start_witness :
  let w := collection [event "note" "A" 5; event "note" "B" 15] in
  (chronos (ChronoSet_new 0) < length (arrays w))%nat
  ∧ matching (objects w) by_start (arrays w !!! 0%nat) = []
  ∧ matching (objects w) (end_criteria by_start by_stop) (arrays w !!! 0%nat)
    = []
  ∧ ∀ h, ∃ pairs this' w',
      FindSuccessivePairs h (ChronoSet_new 0) by_start by_stop w
      = (Ok (pairs, this'), w')
      ∧ arrays w' !!! pairs = []
      ∧ objects w' = objects w
      ∧ arrays w' !!! chronos this' = [0; 1]%nat.
Proof.
  intros w. split; [simpl; lia|]. split; [reflexivity|].
  split; [reflexivity|]. intros h.
  destruct (FindSuccessivePairs_without_start h (ChronoSet_new 0) by_start
              by_stop w) as (pairs & this' & w' & Hrun & Hp & Ho & Hc);
    [simpl; lia|reflexivity|].
  exists pairs, this', w'. split; [exact Hrun|]. split; [exact Hp|].
  split; [exact Ho|]. rewrite Hc by reflexivity. reflexivity.
Defined.

(** ** What [FindSuccessivePairs] writes *)

(** What a write to the object [start_] keeps, a merge into [start_]
    keeps. *)
Section MergeWrites.
Context (start_ : ref) (I : world → Prop).
Hypothesis I_write :
  ∀ w c, I w →
         I (World (<[start_ := c]> (objects w)) (arrays w) (errors w)
                  (draws w)).

Lemma triple_update_write (f : Chrono → Chrono) :
  triple I (update_obj start_ f) (λ _, I) I.
Proof. intros w Hw. apply I_write, Hw. Qed.

Lemma triple_prefer_write (end' : option ref) (f : Chrono → val)
    (set : val → Chrono → Chrono) :
  triple I
         (s ← read_obj start_;
          v ← (if truthy (f s) then mret (f s) else of_end end' f);
          update_obj start_ (set v))
         (λ _, I) I.
Proof.
  eapply triple_bind; [apply (triple_same I); reflexivity|intros s].
  eapply triple_bind; [|intros v; apply triple_update_write].
  destruct (truthy (f s)); [apply triple_ret|apply (triple_of_end_frame I)].
Qed.

Lemma triple_merge_write (h : Host) (end' : option ref) :
  triple I (merge h start_ end') (λ _, I) I.
Proof.
  unfold merge.
  repeat (eapply triple_bind; [apply triple_prefer_write|intros ?]).
  eapply triple_bind; [apply (triple_of_end_frame I)|intros e].
  eapply triple_bind; [apply triple_update_write|intros ?].
  eapply triple_bind; [apply (triple_same I); reflexivity|intros s].
  eapply triple_bind; [apply triple_update_write|intros ?].
  eapply triple_bind; [apply (triple_same I); reflexivity|intros s'].
  eapply triple_bind; [apply (triple_of_end_frame I)|intros t].
  eapply triple_bind; [apply triple_update_write|intros ?].
  apply triple_prefer_write.
Qed.

End MergeWrites.

(** A merge into [start_] leaves every other object as it was, and the
    number of objects. *)
Lemma merge_other (h : Host) (start_ r : ref) (end' : option ref)
    (w : world) :
  start_ ≠ r →
  objects (merge h start_ end' w).2 !!! r = objects w !!! r
  ∧ length (objects (merge h start_ end' w).2) = length (objects w).
Proof.
  intros Hne.
  apply (triple_final
           (λ w', objects w' !!! r = objects w !!! r
                  ∧ length (objects w') = length (objects w))).
  - apply triple_merge_write. intros w0 c [H1 H2]. simpl.
    rewrite list_lookup_total_insert_ne by exact Hne.
    rewrite length_insert. auto.
  - auto.
Qed.

(** The loop over [pairs] writes the events of [pairs] only. *)
Lemma form_pairs_other (h : Host) (this_chronos pairs ends : aref)
    (r : ref) (ss : list ref) :
  r ∉ ss →
  ∀ (fuel k : nat) (w : world),
    (∀ x, x ∈ arrays w !!! pairs → x ∈ ss) →
    let w' := (form_pairs h fuel k this_chronos pairs ends w).2 in
    objects w' !!! r = objects w !!! r
    ∧ length (objects w') = length (objects w).
Proof.
  intros Hr. induction fuel as [|fuel IH]; intros k w Hsub; [simpl; auto|].
  cbv zeta. rewrite form_pairs_step.
  destruct ((arrays w !!! pairs) !! k) as [start_|] eqn:Hk; [|simpl; auto].
  cbv zeta.
  destruct (scan _ _ _ _ _) as [end' cut]. cbn [fst snd].
  set (w1 := match cut with
             | Some i => (write_arr ends (delete i (arrays w !!! ends)) w).2
             | None => w
             end).
  assert (Hw1 : objects w1 = objects w
                ∧ ∀ x, x ∈ arrays w1 !!! pairs → x ∈ ss).
  { subst w1. destruct cut as [i|]; [|auto]. simpl. split; [reflexivity|].
    intros x. rewrite list_lookup_total_insert.
    case_decide as Hd; [|apply Hsub].
    destruct Hd as [-> _]. intros Hx. apply Hsub.
    eapply list_elem_of_delete_inv, Hx. }
  destruct Hw1 as [Hobj1 Hsub1].
  assert (Hne : start_ ≠ r).
  { intros ->. apply Hr, Hsub. eapply list_elem_of_lookup_2, Hk. }
  destruct (merge_other h start_ r end' w1 Hne) as [Hm1 Hm2].
  pose proof (merge_arrays h start_ end' w1) as Ha.
  destruct (merge h start_ end' w1) as [[[]|e] w2]; simpl in Hm1, Hm2, Ha.
  - destruct (IH (S k) w2) as [H1 H2].
    { rewrite Ha. exact Hsub1. }
    cbv zeta in H1, H2. rewrite H1, H2, Hm1, Hm2, Hobj1. auto.
  - simpl. rewrite Hm1, Hm2, Hobj1. auto.
Qed.

(** X17: [FindSuccessivePairs] writes no event but those that match the
    start filter: whether the call returns or throws, every other event
    (the ends, and the events that match neither filter) holds afterwards
    what it held before, and no event is created or deleted. *)
Theorem FindSuccessivePairs_writes_starts_only (h : Host) (this : ChronoSet)
    (startKey endKey : filter_obj) (w : world) (r : ref) :
  (chronos this < length (arrays w))%nat →
  r ∉ matching (objects w) startKey (arrays w !!! chronos this) →
  let w' := (FindSuccessivePairs h this startKey endKey w).2 in
  objects w' !!! r = objects w !!! r
  ∧ length (objects w') = length (objects w).
Proof.
  intros Hc Hr.
  destruct (select_spec (chronos this) startKey w)
    as (starts & w1 & Hsel1 & Hobj1 & Hstarts & Hframe1 & Hlen1 & Hv1).
  destruct (select_spec (chronos this) (end_criteria startKey endKey) w1)
    as (ends & w2 & Hsel2 & Hobj2 & Hends & Hframe2 & Hlen2 & Hv2).
  destruct (form_pairs_other h (chronos this) starts ends r _ Hr
              (length (arrays w2 !!! starts)) 0 w2) as [H1 H2].
  { rewrite Hframe2 by (apply Hv1, Hc). rewrite Hstarts. auto. }
  cbv zeta in H1, H2. rewrite Hobj2, Hobj1 in H1, H2.
  cbv zeta. unfold FindSuccessivePairs.
  rewrite bind_run, (consolidate_run h _ _ _ _ _ _ _ _ Hsel1 Hsel2).
  destruct (form_pairs h _ 0 (chronos this) starts ends w2)
    as [[[]|e] w3]; simpl in H1, H2; [|simpl; auto].
  destruct (pop_all_run (chronos this)
              (sort_desc
                 (getIndecies (arrays w1 !!! starts)
                              (arrays w1 !!! chronos this)
                  ++ getIndecies (arrays w2 !!! ends)
                                 (arrays w2 !!! chronos this))) w3)
    as (w4 & Hpop & Hobj4 & _).
  rewrite Hpop. simpl. rewrite Hobj4. auto.
Qed.

(** In the pairing scenario the stop at reference 1 matches no start
    filter: it is the same event after the call. *)
Lemma FindSuccessivePairs_writes_starts_only_witness :
  (chronos (ChronoSet_new 0) < length (arrays two_pairs))%nat
  ∧ matching (objects two_pairs) by_start (arrays two_pairs !!! 0%nat)
    = [0; 2]%nat
  ∧ ∀ h, let w' := (FindSuccessivePairs h (ChronoSet_new 0) by_start
                                        by_stop two_pairs).2 in
         objects w' !!! 1%nat = event "stop" "A" 50
         ∧ length (objects w') = 4%nat.
Proof.
  split; [simpl; lia|]. split; [reflexivity|]. intros h.
  apply (FindSuccessivePairs_writes_starts_only h (ChronoSet_new 0) by_start
           by_stop two_pairs 1%nat); [simpl; lia|].
  change (1%nat ∉ [0; 2]%nat). intros Hin.
  repeat (apply elem_of_cons in Hin as [Hin|Hin]; [discriminate|]).
  by apply elem_of_nil in Hin.
Defined.

(** ** The object [Jsonify] returns *)








(** ** The format of a generated key *)

Lemma elem_of_ascii_list (c : ascii) (l : list ascii) :
  bool_decide (c ∈ l) = true → c ∈ l.
Proof. apply bool_decide_eq_true_1. Qed.

Lemma hex_digit (v : Z) :
  (0 ≤ v < 16)%Z →
  ∃ d, hex v = String d ""
       ∧ d ∈ list_ascii_of_string "0123456789abcdef".
Proof.
  intros Hv.
  assert (Hk : ∃ k : nat, v = Z.of_nat k ∧ (k < 16)%nat)
    by (exists (Z.to_nat v); lia).
  destruct Hk as (k & -> & Hk).
  do 16 (destruct k as [|k];
         [eexists; split; [reflexivity|];
          apply elem_of_ascii_list; reflexivity|]).
  lia.
Qed.

Lemma hex_variant (r : Z) :
  ∃ d, hex (Z.lor (Z.land r 3) 8) = String d ""
       ∧ d ∈ list_ascii_of_string "89ab".
Proof.
  change 3%Z with (Z.ones 2). rewrite Z.land_ones by lia.
  assert (Hk : ∃ k : nat, (r mod 2 ^ 2)%Z = Z.of_nat k ∧ (k < 4)%nat).
  { exists (Z.to_nat (r mod 2 ^ 2)).
    pose proof (Z.mod_pos_bound r (2 ^ 2)). lia. }
  destruct Hk as (k & -> & Hk).
  do 4 (destruct k as [|k];
        [eexists; split; [reflexivity|];
         apply elem_of_ascii_list; reflexivity|]).
  lia.
Qed.

(** With every draw in range, the result follows the template character
    by character, and one draw is made for each [x] and each [y]. *)
Lemma uuid_from_chars (h : Host) :
  random_in_range h →
  ∀ (template : string) (n : nat),
    ∃ cs,
      (uuid_from h n template).1 = string_of_list_ascii cs
      ∧ Forall2 uuid_char (list_ascii_of_string template) cs
      ∧ (uuid_from h n template).2
        = (n + List.length
                 (List.filter (λ c, Ascii.eqb c "x" || Ascii.eqb c "y")
                              (list_ascii_of_string template)))%nat.
Proof.
  intros Hh. induction template as [|c t IH]; intros n.
  - exists []. split; [reflexivity|]. split; [constructor|]. simpl. lia.
  - cbn [uuid_from list_ascii_of_string List.filter].
    destruct (Ascii.eqb c "x") eqn:Hx; [|destruct (Ascii.eqb c "y") eqn:Hy];
      cbn [orb].
    + destruct (IH (S n)) as (cs & Hcs & Hall & Hn).
      destruct (hex_digit (nibble h n) (Hh n)) as (d & Hd & Hin).
      unfold nibble in Hd. rewrite Hd.
      destruct (uuid_from h (S n) t) as [rest n']. cbn [fst snd] in *.
      exists (d :: cs). subst rest. split; [reflexivity|]. split.
      * constructor; [|exact Hall]. unfold uuid_char. rewrite Hx. exact Hin.
      * rewrite Hn. simpl. lia.
    + destruct (IH (S n)) as (cs & Hcs & Hall & Hn).
      destruct (hex_variant (ToInt32 (Math_random h n * 16)))
        as (d & Hd & Hin).
      rewrite Hd.
      destruct (uuid_from h (S n) t) as [rest n']. cbn [fst snd] in *.
      exists (d :: cs). subst rest. split; [reflexivity|]. split.
      * constructor; [|exact Hall]. unfold uuid_char. rewrite Hx, Hy.
        exact Hin.
      * rewrite Hn. simpl. lia.
    + destruct (IH n) as (cs & Hcs & Hall & Hn).
      destruct (uuid_from h n t) as [rest n']. cbn [fst snd] in *.
      exists (c :: cs). subst rest. split; [reflexivity|]. split.
      * constructor; [|exact Hall]. unfold uuid_char. rewrite Hx, Hy.
        reflexivity.
      * exact Hn.
Qed.

(** X19: with a host whose [Math.random() * 16 | 0] is a hexadecimal digit
    at every draw, [getUuid] returns a string of 36 characters that
    follows the template [xxxxxxxx-xxxx-4xxx-yxxx-xxxxxxxxxxxx] character
    by character: a lower-case hexadecimal digit for each [x], one of 8, 9,
    a, b for the [y], and the four dashes and the 4 where the template has
    them; it makes 31 draws and changes nothing else. *)
Theorem getUuid_format (h : Host) (w : world) :
  random_in_range h →
  ∃ cs,
    getUuid h w
    = (Ok (string_of_list_ascii cs),
       World (objects w) (arrays w) (errors w) (draws w + 31))
    ∧ Forall2 uuid_char (list_ascii_of_string uuid_template) cs
    ∧ length cs = 36%nat
    ∧ cs !! 14%nat = Some "4"%char
    ∧ (∀ i, i ∈ [8; 13; 18; 23]%nat → cs !! i = Some "-"%char).
Proof.
  intros Hh.
  destruct (uuid_from_chars h Hh uuid_template (draws w))
    as (cs & Hcs & Hall & Hn).
  exists cs. unfold getUuid.
  destruct (uuid_from h (draws w) uuid_template) as [u n].
  cbn [fst snd] in *. subst u n.
  assert (Hlit : ∀ i c,
             list_ascii_of_string uuid_template !! i = Some c →
             Ascii.eqb c "x" = false → Ascii.eqb c "y" = false →
             cs !! i = Some c).
  { intros i c Hi Hx Hy.
    destruct (Forall2_lookup_l _ _ _ _ _ Hall Hi) as (c' & Hc' & Hok).
    unfold uuid_char in Hok. rewrite Hx, Hy in Hok. congruence. }
  split; [reflexivity|]. split; [exact Hall|]. split; [|split].
  - rewrite <- (Forall2_length _ _ _ Hall). reflexivity.
  - apply Hlit; reflexivity.
  - intros i Hi.
    repeat (apply elem_of_cons in Hi as [->|Hi];
            [apply Hlit; reflexivity|]).
    by apply elem_of_nil in Hi.
Qed.

(** The host that always draws 0.5 gives the digit 8 everywhere. *)
Lemma getUuid_format_witness :
  random_in_range fixed_host
  ∧ (getUuid fixed_host no_state).1
    = Ok "88888888-8888-4888-8888-888888888888"
  ∧ ∃ cs,
      (getUuid fixed_host no_state).1 = Ok (string_of_list_ascii cs)
      ∧ length cs = 36%nat.
Proof.
  assert (H : random_in_range fixed_host).
  { intros n. unfold nibble. simpl Math_random.
    change (ToInt32 (0.5 * 16)) with 8%Z. lia. }
  split; [exact H|]. split; [reflexivity|].
  destruct (getUuid_format fixed_host no_state H)
    as (cs & Hrun & _ & Hlen & _).
  exists cs. rewrite Hrun. split; [reflexivity|exact Hlen].
Defined.

(** ** The text [Csvify] returns *)

Lemma state_blind_ret {A : Type} (a : A) : state_blind (mret a).
Proof. intros w w0. reflexivity. Qed.

Lemma state_blind_lift {A : Type} (r : result A) : state_blind (lift r).
Proof. intros w w0. reflexivity. Qed.

Lemma state_blind_push_error (d : diag) : state_blind (push_error d).
Proof. intros w w0. reflexivity. Qed.

Lemma state_blind_bind {A B : Type} (m : M A) (f : A → M B) :
  state_blind m → (∀ a, state_blind (f a)) → state_blind (m ≫= f).
Proof.
  intros Hm Hf w w0. rewrite !bind_run. specialize (Hm w w0).
  destruct (m w) as [[a|e] w1], (m w0) as [[a0|e0] w2]; simpl in Hm;
    try discriminate.
  - injection Hm as <-. apply Hf.
  - injection Hm as <-. reflexivity.
Qed.

(** The line [toCsv] returns for an event does not depend on the state. *)
Lemma toCsv_state_blind (h : Host) (c : Chrono) (sep : string) :
  state_blind (toCsv h c sep).
Proof.
  unfold toCsv, toCsv_cells.
  apply state_blind_bind; [|intros cells; apply state_blind_ret].
  apply state_blind_bind.
  { destruct (falsy_num (start c) || falsy_num (end_ c));
      [apply state_blind_push_error|apply state_blind_ret]. }
  intros _.
  do 2 (apply state_blind_bind; [apply state_blind_lift|intros ?]).
  apply state_blind_bind.
  { destruct (falsy_num (start c)); [apply state_blind_ret|].
    apply state_blind_bind; [apply state_blind_lift|].
    intros ?; apply state_blind_ret. }
  intros ?. apply state_blind_bind.
  { destruct (falsy_num (end_ c)); [apply state_blind_ret|].
    apply state_blind_bind; [apply state_blind_lift|].
    intros ?; apply state_blind_ret. }
  intros ?. apply state_blind_bind; [apply state_blind_lift|intros ?].
  apply state_blind_ret.
Qed.

Lemma Csvify_rows_run (h : Host) (rs : list ref) :
  ∀ w,
    Forall (λ r, writable (objects w !!! r)) rs →
    ∃ lines ds w',
      Csvify_rows (λ c, toCsv h c ",") rs w = (Ok lines, w')
      ∧ logged ds w w'
      ∧ Forall2 (λ r line, ∀ w0, (toCsv h (objects w !!! r) "," w0).1
                                 = Ok line) rs lines.
Proof.
  induction rs as [|r rs IH]; intros w Hall.
  - exists [], [], w. split; [reflexivity|].
    split; [apply logged_refl|constructor].
  - apply Forall_cons in Hall as [(Ht & Hd & Hg & Hs & He) Hall].
    destruct (toCsv_cells_run (objects w !!! r) "," w Ht Hd Hg Hs He)
      as (cells & w1 & Hcells & Hlog).
    assert (Hrun : toCsv h (objects w !!! r) "," w
                   = (Ok (array_join h "," cells), w1)).
    { unfold toCsv. rewrite bind_run, Hcells. reflexivity. }
    assert (Hobjs : objects w1 = objects w).
    { unfold logged in Hlog. rewrite Hlog. reflexivity. }
    destruct (IH w1) as (lines & ds & w' & Hrows & Hlog' & Hlines).
    { rewrite Hobjs. exact Hall. }
    exists (array_join h "," cells :: lines). eexists _, w'.
    split; [|split].
    + change (Csvify_rows (λ c, toCsv h c ",") (r :: rs) w)
        with ((c ← read_obj r;
               line ← toCsv h c ",";
               lines ← Csvify_rows (λ c, toCsv h c ",") rs;
               mret (line :: lines)) w).
      rewrite bind_run. simpl. rewrite bind_run, Hrun, bind_run, Hrows.
      reflexivity.
    + eapply logged_trans; eauto.
    + constructor.
      * intros w0. rewrite (toCsv_state_blind h _ "," w0 w), Hrun.
        reflexivity.
      * rewrite Hobjs in Hlines. exact Hlines.
Qed.

(** X21: when every event of the collection can be written (texts that
    are strings or falsy, times that are falsy or valid dates), [Csvify]
    in the new format returns the header line followed by one line for
    each event, in the order of the collection, the lines joined by
    ["\r\n"]: the line of an event is the text [toCsv(",")] returns for
    it, which is the same in every state.  The events and the arrays are
    left as they were. *)
Theorem Csvify_returns (h : Host) (this : ChronoSet) (w : world) :
  Forall (λ r, writable (objects w !!! r)) (arrays w !!! chronos this) →
  ∃ lines ds w',
    Csvify h this false w = (Ok (join crlf (csv_header :: lines)), w')
    ∧ logged ds w w'
    ∧ length lines = length (arrays w !!! chronos this)
    ∧ Forall2 (λ r line, ∀ w0, (toCsv h (objects w !!! r) "," w0).1
                               = Ok line)
              (arrays w !!! chronos this) lines.
Proof.
  intros Hall.
  destruct (Csvify_rows_run h (arrays w !!! chronos this) w Hall)
    as (lines & ds & w' & Hrows & Hlog & Hlines).
  exists lines, ds, w'. split; [|split; [exact Hlog|split]].
  - unfold Csvify. rewrite bind_run. simpl. rewrite bind_run, Hrows.
    reflexivity.
  - symmetry. exact (Forall2_length _ _ _ Hlines).
  - exact Hlines.
Qed.

(** Two titled events, from 00:00:01 to 00:00:02.5: the text is the header
    line, the line of the first event and the line of the second. *)
Lemma Csvify_returns_witness :
  let w := collection [titled "a"; titled "b"] in
  Forall (λ r, writable (objects w !!! r)) (arrays w !!! 0%nat)
  ∧ ∀ h, ∃ lines ds w',
      Csvify h (ChronoSet_new 0) false w
      = (Ok (join crlf (csv_header :: lines)), w')
      ∧ logged ds w w'
      ∧ length lines = 2%nat
      ∧ Forall2 (λ r line, ∀ w0, (toCsv h (objects w !!! r) "," w0).1
                                 = Ok line)
                [0; 1]%nat lines.
Proof.
  intros w.
  assert (Hw : ∀ t, writable (titled t)).
  { intros t. split; [right; eexists; reflexivity|].
    split; [left; reflexivity|]. split; [left; reflexivity|].
    split; intros _; vm_compute; eexists; reflexivity. }
  assert (H : Forall (λ r, writable (objects w !!! r)) (arrays w !!! 0%nat)).
  { change (arrays w !!! 0%nat) with [0; 1]%nat.
    constructor; [exact (Hw "a")|].
    constructor; [exact (Hw "b")|constructor]. }
  split; [exact H|]. intros h.
  exact (Csvify_returns h (ChronoSet_new 0) w H).
Defined.
